(** * Phutil (win32): command-line encoding, process launch and path splitting

    A shallow embedding of [src/support/win32/Phutil.cpp].

    - [wchar_t] is a UTF-16 code unit; it is modelled as [Z] and a
      [std::wstring] as the list of its code units.  A C string
      ([const wchar_t*]) is the list of the code units that precede its
      terminating NUL, so a well-formed C string holds no 0 ([is_cstr]).
    - [std::size_t] positions are [nat]; [npos] is [None].
    - The [int] backslash counter of [EscapeArgWin32] is a [nat]: it never
      exceeds the length of the argument, which is far below [INT_MAX] for
      any command line the host accepts.
    - Calls into the host (job objects, process creation, the error stream)
      are recorded as a trace of events; what the host answers is read from
      an oracle record. *)

From Stdlib Require Import String Ascii.
From Stdlib Require Import ZArith Arith List Bool Lia.
Import ListNotations.
Open Scope Z_scope.

(** ** Characters and strings *)

Abbreviation wchar := Z (only parsing).
Abbreviation wstring := (list Z) (only parsing).

(** Wide character literal [L'c'] and wide string literal [L"..."]. *)
Definition wc (a : ascii) : wchar := Z.of_N (N_of_ascii a).
Definition W (s : string) : wstring := map wc (list_ascii_of_string s).

Definition kQuote : wchar := 34.
Definition kBackslash : wchar := 92.
Definition kSpace : wchar := 32.
Definition kTab : wchar := 9.
Definition kCaret : wchar := 94.

(** A C string holds no NUL code unit. *)
Definition is_cstr (s : wstring) : Prop := Forall (fun c => 0 < c) s.

(** [std::wcslen]. *)
Definition wcslen (s : wstring) : nat := length s.

(** [std::wcspbrk]: the suffix of [s] starting at the first code unit that
    occurs in [accept], [None] for [nullptr]. *)
Fixpoint wcspbrk (s accept : wstring) : option wstring :=
  match s with
  | [] => None
  | c :: s' => if existsb (Z.eqb c) accept then Some s else wcspbrk s' accept
  end.

Definition is_nullptr {A} (p : option A) : bool :=
  match p with None => true | Some _ => false end.

(** The iterator range [[b, e)] of a string. *)
Definition range (s : wstring) (b e : nat) : wstring :=
  firstn (e - b) (skipn b s).

(** ** EscapeArgWin32 (Phutil.cpp:36-65) *)

Record EscapeState := mkEscapeState {
  result : wstring;
  span_begin : nat;
  consecutive_backslash_count : nat
}.

(** One iteration of the [for] loop, with [it] the position of [ch]. *)
Definition escape_step (arg : wstring) (it : nat) (ch : wchar)
    (st : EscapeState) : EscapeState :=
  if ch =? kBackslash then
    mkEscapeState (result st) (span_begin st)
                  (S (consecutive_backslash_count st))
  else if ch =? kQuote then
    mkEscapeState
      (result st ++ range arg (span_begin st) it
                 ++ repeat kBackslash (consecutive_backslash_count st + 1))
      it 0
  else
    mkEscapeState (result st) (span_begin st) 0.

(** The loop from position [it]; [todo] is the part of [arg] not yet read. *)
Fixpoint escape_loop (arg : wstring) (it : nat) (todo : wstring)
    (st : EscapeState) : EscapeState :=
  match todo with
  | [] => st
  | ch :: todo' => escape_loop arg (S it) todo' (escape_step arg it ch st)
  end.

Definition EscapeArgWin32 (arg : wstring) : wstring :=
  let st := escape_loop arg 0 arg (mkEscapeState [kQuote] 0 0) in
  let result := result st ++ range arg (span_begin st) (length arg) in
  let result := result ++ repeat kBackslash (consecutive_backslash_count st) in
  result ++ [kQuote].

(** ** EncodeCommandLineWin32 (Phutil.cpp:67-94) *)

Definition kEscapeSetWin32 : wstring := [kSpace; kQuote] ++ W "~@?*[".

(** The test [std::wcslen(a) && std::wcspbrk(a, set) == nullptr]. *)
Definition verbatim_ok (a set : wstring) : bool :=
  negb (Nat.eqb (wcslen a) 0) && is_nullptr (wcspbrk a set).

Fixpoint EncodeCommandLineWin32_loop (i : nat) (args : list wstring)
    (result : wstring) : wstring :=
  match args with
  | [] => result
  | a :: args' =>
    let result := if negb (Nat.eqb i 0) then result ++ [kSpace] else result in
    let result :=
      if verbatim_ok a kEscapeSetWin32 then result ++ a
      else result ++ EscapeArgWin32 a in
    EncodeCommandLineWin32_loop (S i) args' result
  end.

Definition EncodeCommandLineWin32 (args : list wstring) : wstring :=
  EncodeCommandLineWin32_loop 0 args [].

(** ** EncodeCommandLineCmd (Phutil.cpp:96-149) *)

Definition kEscapeSetCmd : wstring := [kSpace; kQuote].

Definition isCmdMetachar (ch : wchar) : bool :=
  (ch =? wc "(") || (ch =? wc ")") || (ch =? wc "%") || (ch =? wc "!")
  || (ch =? wc "^") || (ch =? kQuote) || (ch =? wc "<") || (ch =? wc ">")
  || (ch =? wc "&") || (ch =? wc "|").

(** A range-[for] loop that copies [arg] to the end of [result] and pushes
    a caret before the code units [needs_caret] selects. *)
Definition caret_copy (needs_caret : wchar -> bool) (arg result : wstring)
    : wstring :=
  fold_left
    (fun result ch =>
       let result := if needs_caret ch then result ++ [kCaret] else result in
       result ++ [ch])
    arg result.

Fixpoint EncodeCommandLineCmd_loop (i : nat) (args : list wstring)
    (result : wstring) : wstring :=
  match args with
  | [] => result
  | a :: args' =>
    let result := result ++ [kSpace] in
    let arg := if verbatim_ok a kEscapeSetCmd then a else EscapeArgWin32 a in
    let result :=
      if Nat.eqb i 0
      then caret_copy (fun ch => isCmdMetachar ch || (ch =? kSpace)) arg result
      else caret_copy isCmdMetachar arg result in
    EncodeCommandLineCmd_loop (S i) args' result
  end.

Definition EncodeCommandLineCmd (args : list wstring) : wstring :=
  EncodeCommandLineCmd_loop 0 args (W "cmd.exe /D /C").

(** ** kCmdBuiltins and IsCmdBuiltin (Phutil.cpp:14-34) *)

Definition kCmdBuiltins : list wstring := [
    W "assoc";    W "break";    W "call";  W "cd";     W "chdir";  W "cls";
    W "color";    W "copy";     W "date";  W "del";    W "dir";    W "dpath";
    W "echo";     W "endlocal"; W "erase"; W "exit";   W "for";    W "ftype";
    W "goto";     W "if";       W "keys";  W "md";     W "mkdir";  W "mklink";
    W "move";     W "path";     W "pause"; W "popd";   W "prompt"; W "pushd";
    W "rd";       W "rem";      W "ren";   W "rename"; W "rmdir";  W "set";
    W "setlocal"; W "shift";    W "start"; W "time";   W "title";  W "type";
    W "ver";      W "verify";   W "vol"
  ].

(** Case folding of [_wcsicmp].  The program never changes the locale, so
    the comparison runs in the C locale, where the C runtime folds the
    letters A-Z and nothing else. *)
Definition towlower (c : wchar) : wchar :=
  if (65 <=? c) && (c <=? 90) then c + 32 else c.

(** [_wcsicmp]: the difference of the first pair of folded code units that
    differ, the end of a string counting as the NUL that terminates it. *)
Fixpoint _wcsicmp (a b : wstring) : Z :=
  match a, b with
  | [], [] => 0
  | [], y :: _ => 0 - towlower y
  | x :: _, [] => towlower x - 0
  | x :: a', y :: b' =>
    if towlower x =? towlower y then _wcsicmp a' b'
    else towlower x - towlower y
  end.

(** The comparator passed to [std::binary_search]. *)
Definition comp (a b : wstring) : bool := _wcsicmp a b <? 0.

(** [std::lower_bound] over the positions [[first, first + count)] of
    [table]: the loop halves [count] until it is 0.  [fuel] bounds the number
    of iterations; [count] itself is always enough, since every iteration
    makes [count] smaller. *)
Fixpoint lower_bound_loop (fuel : nat) (table : list wstring)
    (value : wstring) (first count : nat) : nat :=
  match fuel with
  | O => first
  | S fuel' =>
    if Nat.ltb 0 count then
      let step := Nat.div2 count in
      let it := (first + step)%nat in
      if comp (nth it table []) value
      then lower_bound_loop fuel' table value (S it) (count - (step + 1))
      else lower_bound_loop fuel' table value first step
    else first
  end.

Definition lower_bound (table : list wstring) (value : wstring) : nat :=
  lower_bound_loop (length table) table value 0 (length table).

(** [std::binary_search]: the position [lower_bound] returns is not the end
    and [value] is not below the element there. *)
Definition binary_search (table : list wstring) (value : wstring) : bool :=
  let first := lower_bound table value in
  negb (Nat.eqb first (length table))
  && negb (comp value (nth first table [])).

Definition IsCmdBuiltin (candidate : wstring) : bool :=
  binary_search kCmdBuiltins candidate.

(** Two strings are case variants of each other when they agree up to the
    case of their letters. *)
Definition case_variant (s t : wstring) : Prop :=
  map towlower s = map towlower t.

(** ** Die and CallProcess (Phutil.cpp:25-28, 153-214)

    A run of the launcher leaves a trace of the calls it made into the host,
    in order, and either returns a value or ends the process with an exit
    status. *)

Inductive event : Type :=
| WriteStderr (text : wstring)
| CreateJobObject
| QueryInformationJobObject
| SetInformationJobObject (LimitFlags : Z)
| GetStdHandle (nStdHandle : Z)
| SetConsoleCtrlHandler
| CreateProcessW (lpCommandLine : wstring)
| AssignProcessToJobObject
| CloseHandle
| WaitForSingleObjectEx
| GetExitCodeProcess.

Inductive outcome (A : Type) : Type :=
| Returns (a : A)
| Exits (status : Z).
Arguments Returns {A} a.
Arguments Exits {A} status.

Definition proc (A : Type) : Type := list event -> list event * outcome A.

Definition ret {A} (a : A) : proc A := fun trace => (trace, Returns a).

Definition bind {A B} (m : proc A) (k : A -> proc B) : proc B :=
  fun trace =>
    match m trace with
    | (trace', Returns a) => k a trace'
    | (trace', Exits status) => (trace', Exits status)
    end.

Definition call (e : event) : proc unit :=
  fun trace => (trace ++ [e], Returns tt).

Notation "e1 ;; e2" := (bind e1 (fun _ => e2))
  (at level 61, right associativity).

(** What the host answers to the calls of one run. *)
Record Host : Type := mkHost {
  sizeof_info : Z;            (* sizeof(JOBOBJECT_EXTENDED_LIMIT_INFORMATION) *)
  job : Z;                    (* CreateJobObject; 0 is the null handle *)
  query_ok : bool;            (* QueryInformationJobObject *)
  query_len : Z;
  query_LimitFlags : Z;
  set_ok : bool;              (* SetInformationJobObject *)
  ctrl_ok : bool;             (* SetConsoleCtrlHandler *)
  create_ok : bool;           (* CreateProcessW *)
  last_error : Z;             (* GetLastError after CreateProcessW *)
  exit_ok : bool;             (* GetExitCodeProcess *)
  rc : Z                      (* the DWORD it stores *)
}.

Definition JOB_OBJECT_LIMIT_KILL_ON_JOB_CLOSE : Z := 0x2000.
Definition JOB_OBJECT_LIMIT_SILENT_BREAKAWAY_OK : Z := 0x1000.
Definition ERROR_FILE_NOT_FOUND : Z := 2.
Definition STD_INPUT_HANDLE : Z := -10.
Definition STD_OUTPUT_HANDLE : Z := -11.
Definition STD_ERROR_HANDLE : Z := -12.

(** [std::endl], and the newline of a narrow literal. *)
Definition endl : wstring := [10].

Definition Die {A} (msg : wstring) : proc A :=
  fun trace =>
    (trace ++ [WriteStderr (W "FATAL: " ++ msg ++ endl)], Exits 1).

(** Conversion of the [DWORD] exit code to the [int] that is returned. *)
Definition int_of_DWORD (d : Z) : Z :=
  let d := d mod 2 ^ 32 in
  if d <? 2 ^ 31 then d else d - 2 ^ 32.

(** The command line [CallProcess] builds for a non-empty [argv]. *)
Definition command_line (argv : list wstring) : wstring :=
  if IsCmdBuiltin (nth 0 argv []) then EncodeCommandLineCmd argv
  else EncodeCommandLineWin32 argv.

Definition CallProcess (h : Host) (argv : list wstring) : proc Z :=
  (if Nat.eqb (length argv) 0 then Die (W "No arguments specified")
   else ret tt) ;;
  let cmd := command_line argv in
  call CreateJobObject ;;
  call QueryInformationJobObject ;;
  (if negb (query_ok h) || negb (query_len h =? sizeof_info h) || (job h =? 0)
   then Die (W "Job information querying failed")
   else ret tt) ;;
  let LimitFlags :=
    Z.lor (Z.lor (query_LimitFlags h) JOB_OBJECT_LIMIT_KILL_ON_JOB_CLOSE)
          JOB_OBJECT_LIMIT_SILENT_BREAKAWAY_OK in
  call (SetInformationJobObject LimitFlags) ;;
  (if negb (set_ok h) then Die (W "Job information setting failed")
   else ret tt) ;;
  call (GetStdHandle STD_INPUT_HANDLE) ;;
  call (GetStdHandle STD_OUTPUT_HANDLE) ;;
  call (GetStdHandle STD_ERROR_HANDLE) ;;
  call SetConsoleCtrlHandler ;;
  (if negb (ctrl_ok h) then Die (W "control handler setting failed")
   else ret tt) ;;
  call (CreateProcessW cmd) ;;
  (if negb (create_ok h) then
     if last_error h =? ERROR_FILE_NOT_FOUND then
       call (WriteStderr (nth 0 argv [] ++ W ": not found" ++ endl)) ;;
       ret 127
     else Die (W "Unable to create process")
   else
     call AssignProcessToJobObject ;;
     call CloseHandle ;;
     call WaitForSingleObjectEx ;;
     call GetExitCodeProcess ;;
     (if negb (exit_ok h) then Die (W "Failed to get exit code of process")
      else ret tt) ;;
     ret (int_of_DWORD (rc h))).

(** The host lets a run get as far as [CreateProcessW]. *)
Definition reaches_spawn (h : Host) : Prop :=
  query_ok h = true /\ query_len h = sizeof_info h /\ job h <> 0
  /\ set_ok h = true /\ ctrl_ok h = true.

(** The calls a run makes up to and including [CreateProcessW]. *)
Definition spawn_trace (h : Host) (argv : list wstring) : list event :=
  [ CreateJobObject; QueryInformationJobObject;
    SetInformationJobObject
      (Z.lor (Z.lor (query_LimitFlags h) JOB_OBJECT_LIMIT_KILL_ON_JOB_CLOSE)
             JOB_OBJECT_LIMIT_SILENT_BREAKAWAY_OK);
    GetStdHandle STD_INPUT_HANDLE; GetStdHandle STD_OUTPUT_HANDLE;
    GetStdHandle STD_ERROR_HANDLE; SetConsoleCtrlHandler;
    CreateProcessW (command_line argv) ].

(** ** SplitDrive and SplitPath (Phutil.cpp:216-273)

    [std::wstring] members that throw [std::out_of_range] return [None]
    where they would throw. *)

Definition throws (A : Type) := option A.

Notation "x <- e ;; k" :=
  (match e with Some x => k | None => None end)
  (at level 61, e at next level, right associativity).

(** [s.substr(pos, count)]. *)
Definition substr (s : wstring) (pos count : nat) : throws wstring :=
  if Nat.ltb (length s) pos then None
  else Some (firstn count (skipn pos s)).

(** [s.substr(pos)]. *)
Definition substr_from (s : wstring) (pos : nat) : throws wstring :=
  if Nat.ltb (length s) pos then None else Some (skipn pos s).

(** [s.erase(pos)]: drops everything from [pos] on. *)
Definition erase_from (s : wstring) (pos : nat) : throws wstring :=
  if Nat.ltb (length s) pos then None else Some (firstn pos s).

Fixpoint find_in (s : wstring) (c : wchar) (i : nat) : option nat :=
  match s with
  | [] => None
  | x :: s' => if x =? c then Some i else find_in s' c (S i)
  end.

(** [s.find(needle, pos)] for a needle of one code unit [c]. *)
Definition find (s : wstring) (c : wchar) (pos : nat) : option nat :=
  find_in (skipn pos s) c pos.

Fixpoint find_last_not_in (s seps : wstring) (i : nat) : option nat :=
  match s with
  | [] => None
  | x :: s' =>
    match find_last_not_in s' seps (S i) with
    | Some j => Some j
    | None => if existsb (Z.eqb x) seps then None else Some i
    end
  end.

(** [s.find_last_not_of(seps)]. *)
Definition find_last_not_of (s seps : wstring) : option nat :=
  find_last_not_in s seps 0.

Definition wstring_eqb (a b : wstring) : bool :=
  if list_eq_dec Z.eq_dec a b then true else false.

Definition option_nat_eqb (a : option nat) (n : nat) : bool :=
  match a with Some m => Nat.eqb m n | None => false end.

Definition SplitDrive (path : wstring) : throws (wstring * wstring) :=
  if Nat.leb 2 (length path) then
    let normp :=
      map (fun ch => if ch =? wc "/" then kBackslash else ch) path in
    is_unc <- (head2 <- substr normp 0 2 ;;
               if wstring_eqb head2 [kBackslash; kBackslash] then
                 third <- substr normp 2 1 ;;
                 Some (negb (wstring_eqb third [kBackslash]))
               else Some false) ;;
    if is_unc : bool then
      match find normp kBackslash 2 with
      | None => Some ([], path)
      | Some index =>
        let index2 := find normp kBackslash (index + 1) in
        if option_nat_eqb index2 (index + 1) then Some ([], path)
        else
          let index2 :=
            match index2 with None => length path | Some i => i end in
          drive <- substr path 0 index2 ;;
          rest <- substr_from path index2 ;;
          Some (drive, rest)
      end
    else if nth 1 normp 0 =? wc ":" then
      drive <- substr path 0 2 ;;
      rest <- substr_from path 2 ;;
      Some (drive, rest)
    else Some ([], path)
  else Some ([], path).

Definition sep : wchar := kBackslash.
Definition altsep : wchar := wc "/".
Definition seps : wstring := [wc "/"; kBackslash].

(** The loop [while (i && p[i - 1] != sep && p[i - 1] != altsep) i -= 1]. *)
Fixpoint last_slash_loop (p : wstring) (i : nat) : nat :=
  match i with
  | O => O
  | S i' =>
    if negb (nth i' p 0 =? sep) && negb (nth i' p 0 =? altsep)
    then last_slash_loop p i'
    else i
  end.

Definition SplitPath (path : wstring) : throws (wstring * wstring) :=
  dp <- SplitDrive path ;;
  let d := fst dp in
  let p := snd dp in
  let i := last_slash_loop p (length p) in
  head <- substr p 0 i ;;
  tail <- substr_from p i ;;
  head <- match find_last_not_of head seps with
          | Some j => erase_from head (j + 1)
          | None => Some head
          end ;;
  Some (d ++ head, tail).

Definition is_sep (c : wchar) : bool := (c =? sep) || (c =? altsep).

(** ** The native-argv decoding grammar

    The decoder of the round-trip property is the host's parser of command
    lines (the one [EncodeCommandLineWin32] names in its comment,
    Phutil.cpp:69).  It is not part of the repository. *)

(** Modelled from the spec: the blanks that separate arguments in the
    native-argv grammar, space and tab. *)
Definition is_blank (c : wchar) : bool := (c =? kSpace) || (c =? kTab).

(** The text of the argument being read, [None] between arguments. *)
Definition text (tok : option wstring) : wstring :=
  match tok with Some t => t | None => [] end.

(** Modelled from the spec: the native-argv decoding grammar, which the
    specification names and from which it quotes the rule for a backslash
    run before a quote.  The definition follows the published rules of that
    grammar:
    - outside quotes, arguments are separated by spaces and tabs;
    - [2n] backslashes and a quote give [n] backslashes, and the quote opens
      or closes a quoted part;
    - [2n+1] backslashes and a quote give [n] backslashes and a literal
      quote;
    - backslashes that no quote follows are literal;
    - inside a quoted part, two quotes in a row give one literal quote.
    Every argument is decoded by these rules, the program name too.
    [slashes] counts the backslashes read since the last other code unit;
    they are not yet part of [tok]. *)
Fixpoint decode_loop (s : wstring) (in_quotes : bool) (slashes : nat)
    (tok : option wstring) : list wstring :=
  match s with
  | [] =>
    match tok, slashes with
    | None, O => []
    | _, _ => [text tok ++ repeat kBackslash slashes]
    end
  | c :: s' =>
    if c =? kBackslash then decode_loop s' in_quotes (S slashes) tok
    else if c =? kQuote then
      let t := text tok ++ repeat kBackslash (Nat.div2 slashes) in
      if Nat.odd slashes then decode_loop s' in_quotes 0 (Some (t ++ [kQuote]))
      else if in_quotes then
        match s' with
        | c' :: s'' =>
          if c' =? kQuote then decode_loop s'' true 0 (Some (t ++ [kQuote]))
          else decode_loop s' false 0 (Some t)
        | [] => decode_loop s' false 0 (Some t)
        end
      else decode_loop s' true 0 (Some t)
    else if is_blank c && negb in_quotes then
      match tok, slashes with
      | None, O => decode_loop s' false 0 None
      | _, _ =>
        (text tok ++ repeat kBackslash slashes) :: decode_loop s' false 0 None
      end
    else
      decode_loop s' in_quotes 0
                  (Some (text tok ++ repeat kBackslash slashes ++ [c]))
  end.

(** Modelled from the spec: decoding of a whole command line. *)
Definition decode (s : wstring) : list wstring := decode_loop s false 0 None.




(** ** Auxiliary notions used by the statements and proofs *)

(** What [EscapeArgWin32] writes between the two enclosing quotes for the
    rest [s] of an argument, when [n] backslashes immediately precede [s]. *)
Fixpoint escape_body (n : nat) (s : wstring) : wstring :=
  match s with
  | [] => repeat kBackslash n
  | c :: s' =>
    if c =? kBackslash then c :: escape_body (S n) s'
    else if c =? kQuote then repeat kBackslash (S n) ++ c :: escape_body 0 s'
    else c :: escape_body 0 s'
  end.

(** [escape_body] without the final run, and the length of that run. *)
Fixpoint escape_open (n : nat) (s : wstring) : wstring :=
  match s with
  | [] => []
  | c :: s' =>
    if c =? kBackslash then c :: escape_open (S n) s'
    else if c =? kQuote then repeat kBackslash (S n) ++ c :: escape_open 0 s'
    else c :: escape_open 0 s'
  end.

Fixpoint trailing_backslashes (n : nat) (s : wstring) : nat :=
  match s with
  | [] => n
  | c :: s' =>
    if c =? kBackslash then trailing_backslashes (S n) s'
    else trailing_backslashes 0 s'
  end.

Definition ends_with_backslash (s : wstring) : bool :=
  match rev s with
  | c :: _ => c =? kBackslash
  | [] => false
  end.

(** The argument as one iteration of an encoder loop appends it. *)
Definition quote_arg (set a : wstring) : wstring :=
  if verbatim_ok a set then a else EscapeArgWin32 a.

(** Caret escaping of one code unit, as the copy loops do it: [first] is set
    in the loop for argument 0. *)
Definition caret_char (first : bool) (ch : wchar) : wstring :=
  if isCmdMetachar ch || (first && (ch =? kSpace)) then [kCaret; ch] else [ch].

(** A table is strictly sorted for [comp]; the boolean form is for
    evaluation. *)
Definition strictly_sorted (table : list wstring) : Prop :=
  forall i j, (i < j < length table)%nat ->
    comp (nth i table []) (nth j table []) = true.

Definition strictly_sortedb (table : list wstring) : bool :=
  forallb (fun i =>
             forallb (fun j => comp (nth i table []) (nth j table []))
                     (seq (S i) (length table - S i)))
          (seq 0 (length table)).

(** Arguments written one after the other, a space before each but the
    first. *)
Definition join_args (f : wstring -> wstring) (args : list wstring)
    : wstring :=
  match args with
  | [] => []
  | a :: rest => f a ++ flat_map (fun b => kSpace :: f b) rest
  end.

(** The shell metacharacters as the specification lists them: parentheses,
    percent, bang, caret, double quote, angle brackets, ampersand, pipe. *)
Definition spec_metachars : wstring :=
  W "()%!^" ++ [kQuote] ++ W "<>&|".

(** A caret before every metacharacter of [s], and before every space too
    when [spaces] is set. *)
Definition spec_caret_escape (spaces : bool) (s : wstring) : wstring :=
  flat_map (fun ch =>
              if existsb (Z.eqb ch) spec_metachars
                 || (spaces && (ch =? kSpace))
              then [kCaret; ch] else [ch]) s.

(** The shell command line as the specification words it: the stub, then
    every argument quoted by [quote], caret-escaped (the first one with its
    spaces) and preceded by a space. *)
Definition spec_encodeForShell (quote : wstring -> wstring)
    (args : list wstring) : wstring :=
  W "cmd.exe /D /C"
    ++ match args with
       | [] => []
       | a :: rest =>
         kSpace :: spec_caret_escape true (quote a)
           ++ flat_map (fun b => kSpace :: spec_caret_escape false (quote b))
                       rest
       end.

(** An argument calls for quotes when it is empty or holds one of the code
    units of [special]. *)
Definition spec_needs_quotes (special arg : wstring) : bool :=
  match arg with
  | [] => true
  | _ :: _ => existsb (fun c => existsb (Z.eqb c) special) arg
  end.

(** The native quoting rule of the specification: an argument that is not
    empty and holds none of space, double quote, tilde, at sign, question
    mark, asterisk, open bracket is written as it is, any other is escaped
    between quotes. *)
Definition spec_escapeForNativeParser (arg : wstring) : wstring :=
  if spec_needs_quotes ([kSpace; kQuote] ++ W "~@?*[") arg
  then EscapeArgWin32 arg else arg.

(** The variant of that rule the shell encoder applies: only space and
    double quote make it escape an argument. *)
Definition spec_escapeForShell (arg : wstring) : wstring :=
  if spec_needs_quotes [kSpace; kQuote] arg then EscapeArgWin32 arg else arg.

(** ** wmain (PhutilLauncher.cpp:8-20) *)

Definition PrintUsageAndExit {A} : proc A :=
  fun trace =>
    (trace ++ [WriteStderr (W "PhutilLancher.exe prog [arg1 [arg2...]]"
                              ++ endl)],
     Exits 1).

(** [argv] is the whole argument vector, the launcher's own name first;
    [argc] is its length. *)
Definition wmain (h : Host) (argv : list wstring) : proc Z :=
  (if Nat.ltb (length argv) 2 then PrintUsageAndExit else ret tt) ;;
  CallProcess h (tl argv).

(** ** GetExecutablePath and GetEnv (Phutil.cpp:275-313)

    Both hand a buffer to the host and grow it until the answer fits.  A
    host call of this kind is modelled by what it answers, as a function of
    the number of calls made before it and of the buffer it is given: the
    [DWORD] it returns, the contents of the buffer afterwards and the value
    of [GetLastError]. *)

Record FillAnswer : Type := mkFillAnswer {
  fill_result : nat;
  fill_buf : wstring;
  fill_last_error : Z
}.

Definition BufferCall : Type := nat -> wstring -> FillAnswer.

Definition ERROR_ENVVAR_NOT_FOUND : Z := 203.

(** [buf.resize(n)]: cuts [buf] to [n] code units or pads it with NUL. *)
Definition resize (n : nat) (buf : wstring) : wstring :=
  firstn n buf ++ repeat 0 (n - length buf).

(** The call writes into the buffer and leaves its size as it is. *)
Definition written (a : FillAnswer) (buf : wstring) : wstring :=
  resize (length buf) (fill_buf a).

(** The loop [for (;;)] of [GetExecutablePath], from its call number [k] on.
    [fuel] bounds the number of iterations; [None] is returned when they are
    used up. *)
Fixpoint GetExecutablePath_loop (fuel : nat) (GetModuleFileNameW : BufferCall)
    (k : nat) (buf : wstring) : proc (option wstring) :=
  match fuel with
  | O => ret None
  | S fuel' =>
    let a := GetModuleFileNameW k buf in
    let size := length buf in
    let buf := written a buf in
    let result := fill_result a in
    (if Nat.eqb result 0 then Die (W "Failed to get executable path")
     else ret tt) ;;
    if Nat.ltb result size then ret (Some (resize result buf))
    else GetExecutablePath_loop fuel' GetModuleFileNameW (S k)
                                (resize result buf)
  end.

Definition GetExecutablePath (fuel : nat) (GetModuleFileNameW : BufferCall)
    : proc (option wstring) :=
  GetExecutablePath_loop fuel GetModuleFileNameW 0 (repeat 0 256%nat).

(** The loop of [GetEnv]; the host call is the one for the key asked. *)
Fixpoint GetEnv_loop (fuel : nat) (GetEnvironmentVariableW : BufferCall)
    (k : nat) (buf : wstring) : proc (option wstring) :=
  match fuel with
  | O => ret None
  | S fuel' =>
    let a := GetEnvironmentVariableW k buf in
    let size := length buf in
    let buf := written a buf in
    let result := fill_result a in
    if Nat.eqb result 0 then
      if fill_last_error a =? ERROR_ENVVAR_NOT_FOUND then ret (Some [])
      else Die (W "Failed to look up environment variable")
    else if Nat.ltb result size then ret (Some (resize result buf))
    else GetEnv_loop fuel' GetEnvironmentVariableW (S k) (resize result buf)
  end.

Definition GetEnv (fuel : nat) (GetEnvironmentVariableW : BufferCall)
    : proc (option wstring) :=
  GetEnv_loop fuel GetEnvironmentVariableW 0 (repeat 0 256%nat).

(** ** Notions used by the further properties *)

(** An ASCII letter. *)
Definition is_letter (c : wchar) : bool :=
  ((65 <=? c) && (c <=? 90)) || ((97 <=? c) && (c <=? 122)).

(** Every code unit that [bad] selects, and every caret, is the second half
    of a pair that a caret opens. *)
Inductive caret_guarded (bad : wchar -> bool) : wstring -> Prop :=
| guarded_nil : caret_guarded bad []
| guarded_plain c s :
    bad c = false -> c <> kCaret ->
    caret_guarded bad s -> caret_guarded bad (c :: s)
| guarded_pair c s :
    caret_guarded bad s -> caret_guarded bad (kCaret :: c :: s).

(** The copy of a path in which every forward slash is a backslash. *)
Definition normalized (path : wstring) : wstring :=
  map (fun ch => if ch =? wc "/" then kBackslash else ch) path.

(** The buffer a growing loop hands to call [k] of its host function, when
    no earlier call ended the loop: 256 NULs at first, then the buffer the
    call before wrote, resized to what that call returned. *)
Fixpoint nth_buffer (call : BufferCall) (k : nat) : wstring :=
  match k with
  | O => repeat 0 256%nat
  | S k' =>
    let buf := nth_buffer call k' in
    let a := call k' buf in
    resize (fill_result a) (written a buf)
  end.

(** Up to call [k], every answer said the buffer was too small. *)
Definition too_small_before (call : BufferCall) (k : nat) : Prop :=
  forall j, (j < k)%nat ->
    (length (nth_buffer call j) < fill_result (call j (nth_buffer call j)))%nat.

(** The position at which [SplitDrive] cuts, computed from the normalized
    copy of the path alone. *)
Definition drive_cut (normp : wstring) : nat :=
  if Nat.leb 2 (length normp) then
    if wstring_eqb (firstn 2 normp) [kBackslash; kBackslash]
       && negb (wstring_eqb (firstn 1 (skipn 2 normp)) [kBackslash])
    then
      match find normp kBackslash 2 with
      | None => 0%nat
      | Some index =>
        let index2 := find normp kBackslash (index + 1) in
        if option_nat_eqb index2 (index + 1) then 0%nat
        else match index2 with None => length normp | Some i => i end
      end
    else if nth 1 normp 0 =? wc ":" then 2%nat else 0%nat
  else 0%nat.

(** * Properties *)

Lemma range_prefix (done todo : wstring) (b : nat) :
  (b <= length done)%nat ->
  range (done ++ todo) b (length done) = skipn b done.
Proof.
  intros Hb. unfold range.
  rewrite skipn_app.
  replace (b - length done)%nat with 0%nat by lia.
  rewrite skipn_O, firstn_app, length_skipn.
  replace (length done - b - (length done - b))%nat with 0%nat by lia.
  rewrite firstn_O, app_nil_r.
  apply firstn_all2. rewrite length_skipn. lia.
Qed.

Lemma skipn_snoc (done : wstring) (c : wchar) (b : nat) :
  (b <= length done)%nat ->
  skipn b (done ++ [c]) = skipn b done ++ [c].
Proof.
  intros Hb. rewrite skipn_app.
  replace (b - length done)%nat with 0%nat by lia. reflexivity.
Qed.

Lemma escape_step_span_begin (arg : wstring) (it : nat) (ch : wchar)
    (st : EscapeState) :
  (span_begin st <= it)%nat ->
  (span_begin (escape_step arg it ch st) <= S it)%nat.
Proof.
  intros Hb. unfold escape_step.
  destruct (ch =? kBackslash); [|destruct (ch =? kQuote)]; cbn; lia.
Qed.

Lemma escape_loop_spec (todo : wstring) :
  forall (done : wstring) (st : EscapeState),
    (span_begin st <= length done)%nat ->
    let arg := done ++ todo in
    let st' := escape_loop arg (length done) todo st in
    result st' ++ range arg (span_begin st') (length arg)
      ++ repeat kBackslash (consecutive_backslash_count st')
    = result st ++ skipn (span_begin st) done
      ++ escape_body (consecutive_backslash_count st) todo.
Proof.
  induction todo as [|ch todo IH]; intros done st Hb; cbn zeta.
  - cbn [escape_loop escape_body]. rewrite app_nil_r.
    rewrite <- (app_nil_r done) at 1. rewrite range_prefix by exact Hb.
    reflexivity.
  - cbn [escape_loop escape_body].
    assert (Hlen : length (done ++ [ch]) = S (length done))
      by (rewrite length_app; cbn; lia).
    specialize (IH (done ++ [ch])
                   (escape_step (done ++ ch :: todo) (length done) ch st)).
    cbn zeta in IH. rewrite <- app_assoc in IH. cbn [app] in IH.
    rewrite Hlen in IH. rewrite IH
      by (apply escape_step_span_begin; exact Hb).
    clear IH. unfold escape_step.
    destruct (ch =? kBackslash) eqn:Ebs; [|destruct (ch =? kQuote) eqn:Eq];
      cbn [result span_begin consecutive_backslash_count].
    + rewrite skipn_snoc by exact Hb. rewrite <- app_assoc. reflexivity.
    + rewrite range_prefix by exact Hb.
      rewrite skipn_app, skipn_all, Nat.sub_diag. cbn [skipn app].
      rewrite Nat.add_1_r, <- !app_assoc. reflexivity.
    + rewrite skipn_snoc by exact Hb. rewrite <- app_assoc. reflexivity.
Qed.

Lemma EscapeArgWin32_body (arg : wstring) :
  EscapeArgWin32 arg = kQuote :: escape_body 0 arg ++ [kQuote].
Proof.
  unfold EscapeArgWin32. cbn zeta.
  pose proof (escape_loop_spec arg [] (mkEscapeState [kQuote] 0 0)) as H.
  cbn zeta in H. cbn [app length result span_begin
                      consecutive_backslash_count skipn] in H.
  rewrite <- (app_assoc (result _) _ _).
  rewrite H by lia. reflexivity.
Qed.

Lemma escape_body_app (pre s : wstring) :
  forall n,
    escape_body n (pre ++ s)
    = escape_open n pre ++ escape_body (trailing_backslashes n pre) s.
Proof.
  induction pre as [|c pre IH]; intros n; cbn [app escape_body escape_open
                                                  trailing_backslashes].
  - reflexivity.
  - destruct (c =? kBackslash) eqn:Ebs.
    + rewrite IH. reflexivity.
    + destruct (c =? kQuote); rewrite IH.
      * rewrite <- app_assoc. reflexivity.
      * reflexivity.
Qed.

Lemma escape_body_run (m : nat) (s : wstring) :
  forall n,
    escape_body n (repeat kBackslash m ++ s)
    = repeat kBackslash m ++ escape_body (n + m) s.
Proof.
  induction m as [|m IH]; intros n; cbn [repeat app escape_body].
  - rewrite Nat.add_0_r. reflexivity.
  - rewrite Z.eqb_refl, IH.
    replace (S n + m)%nat with (n + S m)%nat by lia. reflexivity.
Qed.

Lemma trailing_backslashes_snoc (s : wstring) (c : wchar) :
  forall n,
    trailing_backslashes n (s ++ [c])
    = if c =? kBackslash then S (trailing_backslashes n s) else 0%nat.
Proof.
  induction s as [|d s IH]; intros n; cbn [app trailing_backslashes].
  - destruct (c =? kBackslash); reflexivity.
  - destruct (d =? kBackslash); apply IH.
Qed.

Lemma trailing_backslashes_0 (s : wstring) :
  ends_with_backslash s = false -> trailing_backslashes 0 s = 0%nat.
Proof.
  destruct (rev s) as [|c r] eqn:Er; unfold ends_with_backslash; rewrite Er.
  - intros _. apply (f_equal (@rev _)) in Er. rewrite rev_involutive in Er.
    subst s. reflexivity.
  - intros Hc. apply (f_equal (@rev _)) in Er. rewrite rev_involutive in Er.
    subst s. cbn [rev]. rewrite trailing_backslashes_snoc, Hc. reflexivity.
Qed.

Lemma repeat_add_app {A} (x : A) (n m : nat) :
  repeat x n ++ repeat x m = repeat x (n + m).
Proof. symmetry. apply repeat_app. Qed.

Lemma EncodeCommandLineWin32_loop_spec (args : list wstring) :
  forall i result,
    EncodeCommandLineWin32_loop (S i) args result
    = result ++ flat_map (fun a => kSpace :: quote_arg kEscapeSetWin32 a) args.
Proof.
  induction args as [|a args IH]; intros i result;
    cbn [EncodeCommandLineWin32_loop flat_map].
  - rewrite app_nil_r. reflexivity.
  - cbn [Nat.eqb negb]. unfold quote_arg.
    destruct (verbatim_ok a kEscapeSetWin32); rewrite IH, <- !app_assoc;
      reflexivity.
Qed.

Lemma EncodeCommandLineWin32_spec (a : wstring) (args : list wstring) :
  EncodeCommandLineWin32 (a :: args)
  = quote_arg kEscapeSetWin32 a
      ++ flat_map (fun b => kSpace :: quote_arg kEscapeSetWin32 b) args.
Proof.
  unfold EncodeCommandLineWin32. cbn [EncodeCommandLineWin32_loop Nat.eqb negb].
  unfold quote_arg.
  destruct (verbatim_ok a kEscapeSetWin32);
    rewrite EncodeCommandLineWin32_loop_spec; reflexivity.
Qed.

Lemma caret_copy_flat_map (needs_caret : wchar -> bool) (arg : wstring) :
  forall result,
    caret_copy needs_caret arg result
    = result ++ flat_map (fun ch => if needs_caret ch then [kCaret; ch]
                                    else [ch]) arg.
Proof.
  unfold caret_copy.
  induction arg as [|ch arg IH]; intros result; cbn [fold_left flat_map].
  - rewrite app_nil_r. reflexivity.
  - rewrite IH. destruct (needs_caret ch); rewrite <- !app_assoc; reflexivity.
Qed.

Lemma caret_copy_first (arg result : wstring) :
  caret_copy (fun ch => isCmdMetachar ch || (ch =? kSpace)) arg result
  = result ++ flat_map (caret_char true) arg.
Proof. apply caret_copy_flat_map. Qed.

Lemma caret_copy_later (arg result : wstring) :
  caret_copy isCmdMetachar arg result
  = result ++ flat_map (caret_char false) arg.
Proof.
  rewrite caret_copy_flat_map. f_equal. apply flat_map_ext. intros ch.
  unfold caret_char. cbn [andb]. rewrite orb_false_r. reflexivity.
Qed.

Lemma EncodeCommandLineCmd_loop_spec (args : list wstring) :
  forall i result,
    EncodeCommandLineCmd_loop (S i) args result
    = result ++ flat_map (fun a => kSpace ::
                            flat_map (caret_char false)
                                     (quote_arg kEscapeSetCmd a)) args.
Proof.
  induction args as [|a args IH]; intros i result;
    cbn [EncodeCommandLineCmd_loop flat_map].
  - rewrite app_nil_r. reflexivity.
  - cbn [Nat.eqb]. rewrite IH, caret_copy_later.
    fold (quote_arg kEscapeSetCmd a).
    rewrite <- !app_assoc. reflexivity.
Qed.

(** ** Classification *)

Lemma towlower_idem (c : wchar) : towlower (towlower c) = towlower c.
Proof.
  unfold towlower.
  destruct ((65 <=? c) && (c <=? 90)) eqn:E; [|rewrite E; reflexivity].
  apply andb_true_iff in E. destruct E as [E1 E2].
  apply Z.leb_le in E1. apply Z.leb_le in E2.
  replace ((65 <=? c + 32) && (c + 32 <=? 90)) with false; [reflexivity|].
  symmetry. apply andb_false_iff. right. apply Z.leb_gt. lia.
Qed.

Lemma towlower_pos (c : wchar) : 0 < c -> 0 < towlower c.
Proof.
  unfold towlower. destruct ((65 <=? c) && (c <=? 90)); lia.
Qed.

(** [_wcsicmp] only looks at the folded code units. *)
Lemma wcsicmp_fold (a : wstring) :
  forall b, _wcsicmp a b = _wcsicmp (map towlower a) (map towlower b).
Proof.
  induction a as [|x a IH]; intros [|y b]; cbn [_wcsicmp map];
    rewrite ?towlower_idem; try reflexivity.
  rewrite <- IH. reflexivity.
Qed.

Lemma comp_case_variant_l (s t e : wstring) :
  case_variant s t -> comp s e = comp t e.
Proof.
  unfold case_variant, comp. intros H.
  rewrite (wcsicmp_fold s), (wcsicmp_fold t), H. reflexivity.
Qed.

Lemma comp_case_variant_r (s t e : wstring) :
  case_variant s t -> comp e s = comp e t.
Proof.
  unfold case_variant, comp. intros H.
  rewrite (wcsicmp_fold e s), (wcsicmp_fold e t), H. reflexivity.
Qed.

Lemma lower_bound_loop_case_variant (table : list wstring) (s t : wstring) :
  case_variant s t ->
  forall fuel first count,
    lower_bound_loop fuel table s first count
    = lower_bound_loop fuel table t first count.
Proof.
  intros H. induction fuel as [|fuel IH]; intros first count;
    cbn [lower_bound_loop]; [reflexivity|].
  rewrite (comp_case_variant_r s t _ H), !IH. reflexivity.
Qed.

Lemma binary_search_case_variant (table : list wstring) (s t : wstring) :
  case_variant s t -> binary_search table s = binary_search table t.
Proof.
  intros H. unfold binary_search, lower_bound.
  rewrite (lower_bound_loop_case_variant table s t H).
  rewrite (comp_case_variant_l s t _ H). reflexivity.
Qed.

(** On C strings [comp] is a strict total order of the folded strings. *)
Lemma wcsicmp_antisym (a : wstring) :
  forall b, _wcsicmp b a = - _wcsicmp a b.
Proof.
  induction a as [|x a IH]; intros [|y b]; cbn [_wcsicmp]; try lia.
  rewrite (Z.eqb_sym (towlower y)).
  destruct (towlower x =? towlower y); [apply IH | lia].
Qed.

Lemma comp_asym (a b : wstring) : comp a b = true -> comp b a = false.
Proof.
  unfold comp. rewrite (wcsicmp_antisym a b).
  intros H. apply Z.ltb_lt in H. apply Z.ltb_ge. lia.
Qed.

(** The first code units of C strings are positive, folded or not. *)
Ltac cstr_heads :=
  repeat match goal with
         | H : Forall _ (_ :: _) |- _ => inversion H; subst; clear H
         end;
  repeat match goal with
         | H : 0 < ?c |- _ => is_var c; apply towlower_pos in H
         end.

Lemma comp_trans (a : wstring) :
  forall b c, is_cstr a -> is_cstr b -> is_cstr c ->
    comp a b = true -> comp b c = true -> comp a c = true.
Proof.
  unfold comp, is_cstr.
  induction a as [|x a IH]; intros [|y b] [|z c] Ha Hb Hc;
    cbn [_wcsicmp]; intros H1 H2;
    apply Z.ltb_lt in H1; apply Z.ltb_lt in H2;
    cstr_heads;
    try (apply Z.ltb_lt; lia).
  apply Z.ltb_lt.
  destruct (towlower x =? towlower y) eqn:Exy;
    destruct (towlower y =? towlower z) eqn:Eyz;
    destruct (towlower x =? towlower z) eqn:Exz;
    rewrite ?Z.eqb_eq, ?Z.eqb_neq in *; try lia.
  apply Z.ltb_lt. apply (IH b c); try assumption; apply Z.ltb_lt; assumption.
Qed.

Lemma comp_total (a : wstring) :
  forall b, is_cstr a -> is_cstr b ->
    comp a b = false -> comp b a = false -> case_variant a b.
Proof.
  unfold comp, is_cstr, case_variant.
  induction a as [|x a IH]; intros [|y b] Ha Hb;
    cbn [_wcsicmp map]; intros H1 H2;
    apply Z.ltb_ge in H1; apply Z.ltb_ge in H2;
    cstr_heads;
    try reflexivity; try lia.
  rewrite (Z.eqb_sym (towlower y)) in H2.
  destruct (towlower x =? towlower y) eqn:Exy;
    rewrite ?Z.eqb_eq, ?Z.eqb_neq in *; try lia.
  f_equal; [assumption|].
  apply IH; try assumption; apply Z.ltb_ge; assumption.
Qed.

Lemma comp_irrefl_variant (a b : wstring) :
  case_variant a b -> comp a b = false.
Proof.
  unfold comp. intros H. rewrite wcsicmp_fold, H.
  assert (E : forall l, _wcsicmp l l = 0).
  { induction l as [|x l IHl]; cbn [_wcsicmp]; [reflexivity|].
    rewrite Z.eqb_refl. exact IHl. }
  rewrite E. reflexivity.
Qed.

Section BinarySearch.
Variable table : list wstring.
Variable value : wstring.

Let below (i : nat) : bool := comp (nth i table []) value.

(** The elements below [value] form an initial segment of [table]. *)
Hypothesis below_closed :
  forall i j, (i < j < length table)%nat -> below j = true -> below i = true.

Lemma div2_lt (n : nat) : (0 < n)%nat -> (Nat.div2 n < n)%nat.
Proof. intros H. apply Nat.lt_div2. exact H. Qed.

Lemma lower_bound_loop_partition (fuel : nat) :
  forall first count,
    (count <= fuel)%nat ->
    (first + count <= length table)%nat ->
    (forall i, (i < first)%nat -> below i = true) ->
    (forall i, (first + count <= i < length table)%nat -> below i = false) ->
    let r := lower_bound_loop fuel table value first count in
    (r <= length table)%nat
    /\ (forall i, (i < r)%nat -> below i = true)
    /\ (forall i, (r <= i < length table)%nat -> below i = false).
Proof.
  induction fuel as [|fuel IH]; intros first count Hfuel Hlen Hlo Hhi;
    cbn [lower_bound_loop] in *.
  - replace count with 0%nat in * by lia.
    repeat split; [lia | exact Hlo |].
    intros i Hi. apply Hhi. lia.
  - destruct (Nat.ltb 0 count) eqn:Ec.
    + apply Nat.ltb_lt in Ec. pose proof (div2_lt count Ec) as Hstep.
      fold (below (first + Nat.div2 count)).
      generalize dependent (Nat.div2 count). intros step Hstep.
      destruct (below (first + step)) eqn:Eb.
      * apply IH; try lia.
        -- intros i Hi.
           destruct (Nat.eq_dec i (first + step)) as [->|Hne]; [exact Eb|].
           apply (below_closed i (first + step)); [lia|exact Eb].
        -- intros i Hi. apply Hhi. lia.
      * apply IH; try lia.
        -- exact Hlo.
        -- intros i Hi.
           destruct (Nat.eq_dec i (first + step)) as [->|Hne]; [exact Eb|].
           destruct (below i) eqn:Ei; [|reflexivity].
           rewrite (below_closed (first + step) i) in Eb;
             [discriminate | lia | exact Ei].
    + apply Nat.ltb_ge in Ec. replace count with 0%nat in * by lia.
      repeat split; [lia | exact Hlo |].
      intros i Hi. apply Hhi. lia.
Qed.

Lemma lower_bound_partition :
  let r := lower_bound table value in
  (r <= length table)%nat
  /\ (forall i, (i < r)%nat -> below i = true)
  /\ (forall i, (r <= i < length table)%nat -> below i = false).
Proof.
  unfold lower_bound. apply lower_bound_loop_partition; intros; lia.
Qed.
End BinarySearch.

Lemma strictly_sortedb_ok (table : list wstring) :
  strictly_sortedb table = true -> strictly_sorted table.
Proof.
  unfold strictly_sortedb, strictly_sorted. intros H i j Hij.
  rewrite forallb_forall in H.
  assert (Hi : In i (seq 0 (length table))) by (apply in_seq; lia).
  specialize (H i Hi). rewrite forallb_forall in H.
  apply H. apply in_seq. lia.
Qed.

(** Search in a strictly sorted table of folded C strings is membership of
    the folded candidate. *)
Lemma binary_search_member (table : list wstring) (s : wstring) :
  strictly_sorted table ->
  Forall is_cstr table ->
  Forall (fun e => map towlower e = e) table ->
  is_cstr s ->
  binary_search table s = true <-> In (map towlower s) table.
Proof.
  intros Hsorted Hcstr Hfold Hs.
  assert (Hnth_cstr : forall i, (i < length table)%nat ->
                                is_cstr (nth i table [])).
  { intros i Hi. rewrite Forall_forall in Hcstr. apply Hcstr.
    apply nth_In. exact Hi. }
  assert (Hnth_fold : forall i, (i < length table)%nat ->
                                map towlower (nth i table []) = nth i table []).
  { intros i Hi. rewrite Forall_forall in Hfold. apply Hfold.
    apply nth_In. exact Hi. }
  assert (Hclosed : forall i j, (i < j < length table)%nat ->
            comp (nth j table []) s = true -> comp (nth i table []) s = true).
  { intros i j Hij Hj.
    apply (comp_trans _ (nth j table [])); auto.
    - apply Hnth_cstr. lia.
    - apply Hnth_cstr. lia. }
  destruct (lower_bound_partition table s Hclosed) as (Hr & Hlo & Hhi).
  unfold binary_search. cbn zeta.
  set (r := lower_bound table s) in *. clearbody r.
  split.
  - intros H. apply andb_true_iff in H. destruct H as [Hne Hge].
    apply negb_true_iff in Hne. apply Nat.eqb_neq in Hne.
    apply negb_true_iff in Hge.
    assert (Hlt : (r < length table)%nat) by lia.
    assert (Hv : case_variant s (nth r table [])).
    { apply comp_total;
        [exact Hs | apply Hnth_cstr; exact Hlt | exact Hge | apply Hhi; lia]. }
    unfold case_variant in Hv. rewrite Hv, Hnth_fold by exact Hlt.
    apply nth_In. exact Hlt.
  - intros Hin. destruct (In_nth _ _ [] Hin) as (j & Hj & Ej).
    assert (Hvar : case_variant (nth j table []) s).
    { unfold case_variant. rewrite Hnth_fold by exact Hj. exact Ej. }
    assert (Hrj : (r <= j)%nat).
    { destruct (Nat.le_gt_cases r j) as [Hle|Hgt]; [exact Hle|].
      specialize (Hlo j Hgt). rewrite comp_irrefl_variant in Hlo by exact Hvar.
      discriminate. }
    apply andb_true_iff. split.
    + apply negb_true_iff. apply Nat.eqb_neq. lia.
    + apply negb_true_iff.
      destruct (Nat.eq_dec r j) as [->|Hne].
      * apply comp_irrefl_variant. unfold case_variant in *. symmetry.
        exact Hvar.
      * apply comp_asym.
        rewrite (comp_case_variant_r s (nth j table [])).
        -- apply Hsorted. lia.
        -- unfold case_variant in *. symmetry. exact Hvar.
Qed.

Lemma kCmdBuiltins_sorted : strictly_sorted kCmdBuiltins.
Proof. apply strictly_sortedb_ok. vm_compute. reflexivity. Qed.

Lemma kCmdBuiltins_cstr : Forall is_cstr kCmdBuiltins.
Proof.
  apply Forall_forall. intros e He. apply Forall_forall. intros c Hc.
  assert (H : forallb (forallb (Z.ltb 0)) kCmdBuiltins = true)
    by (vm_compute; reflexivity).
  rewrite forallb_forall in H. specialize (H e He).
  rewrite forallb_forall in H. apply Z.ltb_lt. apply H. exact Hc.
Qed.

Lemma kCmdBuiltins_folded : Forall (fun e => map towlower e = e) kCmdBuiltins.
Proof.
  apply Forall_forall. intros e He.
  assert (H : forallb (fun e => forallb (fun c => towlower c =? c) e)
                      kCmdBuiltins = true)
    by (vm_compute; reflexivity).
  rewrite forallb_forall in H. specialize (H e He).
  rewrite forallb_forall in H.
  rewrite <- (map_id e) at 2. apply map_ext_in. intros c Hc.
  apply Z.eqb_eq. apply H. exact Hc.
Qed.

(** C6.  Classification of the first argument is a case-insensitive
    membership test against the sorted table of builtin names: the table is
    strictly sorted for the comparator of the search, case variants of one
    string are classified alike, a C string is a builtin exactly when its
    folded form is an entry of the table, CD and cd are builtins and notepad
    is not. *)
Theorem IsCmdBuiltin_case_insensitive_membership :
  strictly_sorted kCmdBuiltins
  /\ (forall s t, case_variant s t -> IsCmdBuiltin s = IsCmdBuiltin t)
  /\ (forall s, is_cstr s ->
        (IsCmdBuiltin s = true <-> In (map towlower s) kCmdBuiltins))
  /\ IsCmdBuiltin (W "CD") = true
  /\ IsCmdBuiltin (W "cd") = true
  /\ IsCmdBuiltin (W "notepad") = false.
Proof.
  split; [exact kCmdBuiltins_sorted|].
  split; [|split; [|repeat split; vm_compute; reflexivity]].
  - intros s t H. apply binary_search_case_variant. exact H.
  - intros s Hs. apply binary_search_member.
    + exact kCmdBuiltins_sorted.
    + exact kCmdBuiltins_cstr.
    + exact kCmdBuiltins_folded.
    + exact Hs.
Qed.

Lemma IsCmdBuiltin_case_insensitive_membership_witness :
  IsCmdBuiltin (W "ChDir") = IsCmdBuiltin (W "cHdIR")
  /\ (IsCmdBuiltin (W "MkLink") = true
      <-> In (map towlower (W "MkLink")) kCmdBuiltins).
Proof.
  split.
  - apply (proj1 (proj2 IsCmdBuiltin_case_insensitive_membership)).
    reflexivity.
  - apply (proj1 (proj2 (proj2 IsCmdBuiltin_case_insensitive_membership))).
    repeat constructor.
Defined.

(** ** The encoders *)

Lemma EncodeCommandLineWin32_join (args : list wstring) :
  EncodeCommandLineWin32 args = join_args (quote_arg kEscapeSetWin32) args.
Proof.
  destruct args as [|a args]; [reflexivity|].
  apply EncodeCommandLineWin32_spec.
Qed.

Lemma join_args_app (f : wstring -> wstring) (before : list wstring)
    (x : wstring) (after : list wstring) :
  join_args f (before ++ x :: after)
  = join_args f before
      ++ (match before with [] => [] | _ :: _ => [kSpace] end)
      ++ f x ++ flat_map (fun b => kSpace :: f b) after.
Proof.
  destruct before as [|a before]; cbn [join_args app]; [reflexivity|].
  rewrite flat_map_app. cbn [flat_map]. rewrite <- !app_assoc. reflexivity.
Qed.

(** C7.  A lone empty argument is encoded as the two quotes, and an empty
    argument at any place of a list is written as the two quotes: it is
    never left out. *)
Theorem EncodeCommandLineWin32_empty_argument :
  EncodeCommandLineWin32 [[]] = [kQuote; kQuote]
  /\ forall before after,
       EncodeCommandLineWin32 (before ++ [] :: after)
       = EncodeCommandLineWin32 before
           ++ (match before with [] => [] | _ :: _ => [kSpace] end)
           ++ [kQuote; kQuote]
           ++ flat_map (fun b => kSpace :: quote_arg kEscapeSetWin32 b) after.
Proof.
  split; [reflexivity|].
  intros before after.
  rewrite !EncodeCommandLineWin32_join, join_args_app. reflexivity.
Qed.

Lemma removelast_EscapeArgWin32 (s : wstring) :
  ends_with_backslash s = false ->
  removelast (EscapeArgWin32 s) = kQuote :: escape_open 0 s.
Proof.
  intros H. rewrite EscapeArgWin32_body.
  rewrite <- (app_nil_r s) at 1. rewrite escape_body_app.
  rewrite trailing_backslashes_0 by exact H. cbn [escape_body repeat].
  rewrite app_nil_r.
  change (kQuote :: escape_open 0 s ++ [kQuote])
    with ((kQuote :: escape_open 0 s) ++ [kQuote]).
  apply removelast_last.
Qed.

(** C2 (amended).  In the quoted path, for text [pre] that does not end in
    a backslash: a run of [n] backslashes before a literal quote comes out
    as what was written for [pre], then [2n+1] backslashes, then the quote
    and the rest; a run of [n] backslashes at the end of the argument comes
    out as what was written for [pre], then [2n] backslashes, then the
    closing quote.  Text without quotes is written as it is. *)
Theorem EscapeArgWin32_backslash_runs (pre : wstring) (n : nat) :
  ends_with_backslash pre = false ->
  (forall rest,
      EscapeArgWin32 (pre ++ repeat kBackslash n ++ kQuote :: rest)
      = removelast (EscapeArgWin32 pre)
          ++ repeat kBackslash (2 * n + 1) ++ EscapeArgWin32 rest)
  /\ EscapeArgWin32 (pre ++ repeat kBackslash n)
     = removelast (EscapeArgWin32 pre)
         ++ repeat kBackslash (2 * n) ++ [kQuote]
  /\ (Forall (fun c => c <> kQuote) pre ->
      removelast (EscapeArgWin32 pre) = kQuote :: pre).
Proof.
  intros Hpre. rewrite removelast_EscapeArgWin32 by exact Hpre.
  split; [|split].
  - intros rest. rewrite !EscapeArgWin32_body.
    rewrite escape_body_app, trailing_backslashes_0 by exact Hpre.
    rewrite escape_body_run. cbn [escape_body Nat.add].
    replace (kQuote =? kBackslash) with false by reflexivity.
    rewrite Z.eqb_refl.
    replace (2 * n + 1)%nat with (n + S n)%nat by lia.
    rewrite <- repeat_add_app.
    cbn [app]. rewrite <- !app_assoc. reflexivity.
  - rewrite EscapeArgWin32_body.
    rewrite escape_body_app, trailing_backslashes_0 by exact Hpre.
    rewrite <- (app_nil_r (repeat kBackslash n)) at 1.
    rewrite escape_body_run. cbn [escape_body Nat.add].
    replace (2 * n)%nat with (n + n)%nat by lia.
    rewrite <- repeat_add_app.
    cbn [app]. rewrite <- !app_assoc. reflexivity.
  - intros Hq. f_equal. clear Hpre. generalize 0%nat.
    induction pre as [|c pre IH]; intros k; cbn [escape_open]; [reflexivity|].
    inversion Hq as [|c' pre' Hc Hq']; subst.
    apply Z.eqb_neq in Hc. rewrite Hc.
    destruct (c =? kBackslash); rewrite IH by exact Hq'; reflexivity.
Qed.

Lemma EscapeArgWin32_backslash_runs_witness :
  EscapeArgWin32 (W "a b" ++ repeat kBackslash 2 ++ kQuote :: W "c")
  = removelast (EscapeArgWin32 (W "a b"))
      ++ repeat kBackslash (2 * 2 + 1) ++ EscapeArgWin32 (W "c").
Proof.
  apply (EscapeArgWin32_backslash_runs (W "a b") 2). reflexivity.
Defined.

(** C2 as stated fails: the backslash that ends this argument is written
    twice before the closing quote, not once. *)
Lemma EscapeArgWin32_trailing_run_doubled :
  EscapeArgWin32 (W "a b" ++ repeat kBackslash 1)
  <> removelast (EscapeArgWin32 (W "a b"))
       ++ repeat kBackslash 1 ++ [kQuote].
Proof. vm_compute. discriminate. Qed.

Lemma isCmdMetachar_spec (ch : wchar) :
  isCmdMetachar ch = existsb (Z.eqb ch) spec_metachars.
Proof.
  unfold isCmdMetachar, spec_metachars. cbn [W list_ascii_of_string map app
                                              existsb].
  rewrite orb_false_r, <- !orb_assoc. reflexivity.
Qed.

Lemma caret_char_spec (first : bool) (s : wstring) :
  flat_map (caret_char first) s = spec_caret_escape first s.
Proof.
  unfold spec_caret_escape. apply flat_map_ext. intros ch.
  unfold caret_char. rewrite isCmdMetachar_spec. reflexivity.
Qed.

Lemma wcspbrk_existsb (a set : wstring) :
  is_nullptr (wcspbrk a set)
  = negb (existsb (fun c => existsb (Z.eqb c) set) a).
Proof.
  induction a as [|c a IH]; cbn [wcspbrk existsb]; [reflexivity|].
  destruct (existsb (Z.eqb c) set); [reflexivity | exact IH].
Qed.

Lemma quote_arg_spec (set a : wstring) :
  quote_arg set a
  = if spec_needs_quotes set a then EscapeArgWin32 a else a.
Proof.
  unfold quote_arg, verbatim_ok, wcslen. rewrite wcspbrk_existsb.
  destruct a as [|c a]; [reflexivity|].
  cbn [length Nat.eqb negb andb spec_needs_quotes].
  destruct (existsb _ (c :: a)); reflexivity.
Qed.

Lemma EncodeCommandLineCmd_spec (args : list wstring) :
  EncodeCommandLineCmd args = spec_encodeForShell spec_escapeForShell args.
Proof.
  unfold EncodeCommandLineCmd, spec_encodeForShell, spec_escapeForShell.
  destruct args as [|a rest]; cbn [EncodeCommandLineCmd_loop].
  - rewrite app_nil_r. reflexivity.
  - cbn [Nat.eqb]. rewrite EncodeCommandLineCmd_loop_spec, caret_copy_first.
    fold (quote_arg kEscapeSetCmd a).
    rewrite caret_char_spec, <- !app_assoc, quote_arg_spec. cbn [app].
    do 3 f_equal. apply flat_map_ext. intros b.
    rewrite caret_char_spec, quote_arg_spec. reflexivity.
Qed.

(** C3 (amended).  For an argument list whose first argument is a builtin,
    the command line is the stub cmd.exe /D /C followed by every argument,
    each preceded by a space, escaped between quotes when it is empty or
    holds a space or a double quote and written as it is otherwise, then
    with a caret before every metacharacter, and for the first argument
    before every space too. *)
Theorem command_line_shell (argv : list wstring) :
  IsCmdBuiltin (nth 0 argv []) = true ->
  command_line argv = spec_encodeForShell spec_escapeForShell argv.
Proof.
  intros H. unfold command_line. rewrite H. apply EncodeCommandLineCmd_spec.
Qed.

Lemma command_line_shell_witness :
  command_line [W "echo"; W "a&b"; W "c d"]
  = spec_encodeForShell spec_escapeForShell [W "echo"; W "a&b"; W "c d"].
Proof.
  apply (command_line_shell [W "echo"; W "a&b"; W "c d"]).
  vm_compute. reflexivity.
Defined.

(** C3 as stated fails: an asterisk makes the native rule quote the
    argument, the shell encoder writes it bare. *)
Lemma command_line_shell_not_native_rule :
  IsCmdBuiltin (nth 0 [W "echo"; W "*"] []) = true
  /\ command_line [W "echo"; W "*"]
     <> spec_encodeForShell spec_escapeForNativeParser [W "echo"; W "*"].
Proof. split; [vm_compute; reflexivity | vm_compute; discriminate]. Qed.

(** C4 (amended).  The list cd, C:\Program Files is encoded as the stub,
    the builtin name, and the second argument between quotes with a caret
    before each of the two quotes. *)
Theorem command_line_cd_program_files :
  command_line [W "cd"; W "C:\Program Files"]
  = W "cmd.exe /D /C cd ^" ++ [kQuote] ++ W "C:\Program Files^" ++ [kQuote].
Proof. vm_compute. reflexivity. Qed.

(** C4 as stated fails: the command line is not the one in which the
    quoted second argument carries no caret. *)
Lemma command_line_cd_program_files_has_carets :
  command_line [W "cd"; W "C:\Program Files"]
  <> W "cmd.exe /D /C cd " ++ [kQuote] ++ W "C:\Program Files" ++ [kQuote].
Proof. vm_compute. discriminate. Qed.

(** ** The supervisor *)

(** C8.  With an empty argument list the run writes one diagnostic that
    starts with FATAL: to the error stream and ends the launcher with status
    1; it makes no other call into the host, whatever the host would answer:
    nothing is spawned. *)
Theorem CallProcess_no_arguments (h : Host) :
  CallProcess h [] []
  = ([WriteStderr (W "FATAL: " ++ W "No arguments specified" ++ endl)],
     Exits 1)
  /\ forall cmd, ~ In (CreateProcessW cmd) (fst (CallProcess h [] [])).
Proof.
  split; [reflexivity|].
  intros cmd [H|[]]. discriminate H.
Qed.

(** C5.  When the host lets the run reach the spawn and the spawn fails,
    then: if the error is "file not found" the run writes one line naming
    argv[0] to the error stream and returns 127; for every other error it
    writes the fatal diagnostic and ends the launcher with status 1. *)
Theorem CallProcess_spawn_failure (h : Host) (argv0 : wstring)
    (args : list wstring) :
  reaches_spawn h ->
  create_ok h = false ->
  CallProcess h (argv0 :: args) []
  = if last_error h =? ERROR_FILE_NOT_FOUND
    then (spawn_trace h (argv0 :: args)
            ++ [WriteStderr (argv0 ++ W ": not found" ++ endl)],
          Returns 127)
    else (spawn_trace h (argv0 :: args)
            ++ [WriteStderr (W "FATAL: " ++ W "Unable to create process"
                               ++ endl)],
          Exits 1).
Proof.
  intros (Hq & Hlen & Hjob & Hset & Hctrl) Hcreate.
  unfold CallProcess, spawn_trace. cbn zeta.
  generalize (command_line (argv0 :: args)). intros cmd.
  apply Z.eqb_eq in Hlen. apply Z.eqb_neq in Hjob.
  unfold bind, call, ret, Die. cbn [length Nat.eqb nth app].
  rewrite Hq, Hlen, Hjob, Hset, Hctrl, Hcreate. cbn [negb orb app].
  destruct (last_error h =? ERROR_FILE_NOT_FOUND); reflexivity.
Qed.

Lemma CallProcess_spawn_failure_witness :
  CallProcess (mkHost 144 7 true 144 0 true true false 2 false 0)
              [W "no-such-program"; W "x y"] []
  = (spawn_trace (mkHost 144 7 true 144 0 true true false 2 false 0)
                 [W "no-such-program"; W "x y"]
       ++ [WriteStderr (W "no-such-program" ++ W ": not found" ++ endl)],
     Returns 127).
Proof.
  apply (CallProcess_spawn_failure
           (mkHost 144 7 true 144 0 true true false 2 false 0)).
  - unfold reaches_spawn. cbn. repeat split. lia.
  - reflexivity.
Defined.

(** ** Path splitting *)

Lemma substr_ok (s : wstring) (pos count : nat) :
  (pos <= length s)%nat ->
  substr s pos count = Some (firstn count (skipn pos s)).
Proof.
  intros H. unfold substr.
  destruct (Nat.ltb (length s) pos) eqn:E; [|reflexivity].
  apply Nat.ltb_lt in E. lia.
Qed.

Lemma substr_from_ok (s : wstring) (pos : nat) :
  (pos <= length s)%nat -> substr_from s pos = Some (skipn pos s).
Proof.
  intros H. unfold substr_from.
  destruct (Nat.ltb (length s) pos) eqn:E; [|reflexivity].
  apply Nat.ltb_lt in E. lia.
Qed.

Lemma erase_from_ok (s : wstring) (pos : nat) :
  (pos <= length s)%nat -> erase_from s pos = Some (firstn pos s).
Proof.
  intros H. unfold erase_from.
  destruct (Nat.ltb (length s) pos) eqn:E; [|reflexivity].
  apply Nat.ltb_lt in E. lia.
Qed.

Lemma find_in_bound (s : wstring) (c : wchar) :
  forall i j, find_in s c i = Some j -> (i <= j < i + length s)%nat.
Proof.
  induction s as [|x s IH]; intros i j; cbn [find_in length].
  - discriminate.
  - destruct (x =? c).
    + intros [= <-]. lia.
    + intros H. apply IH in H. lia.
Qed.

Lemma find_bound (s : wstring) (c : wchar) (pos j : nat) :
  find s c pos = Some j -> (j < length s)%nat.
Proof.
  unfold find. intros H. apply find_in_bound in H.
  rewrite length_skipn in H. lia.
Qed.

Lemma split_at_ok (path : wstring) (n : nat) :
  (n <= length path)%nat ->
  exists m,
    (m <= length path)%nat
    /\ (drive <- substr path 0 n ;;
        rest <- substr_from path n ;;
        Some (drive, rest)) = Some (firstn m path, skipn m path).
Proof.
  intros Hn. exists n.
  rewrite substr_ok by lia. rewrite substr_from_ok by exact Hn.
  cbn [skipn]. split; [exact Hn | reflexivity].
Qed.

(** [SplitDrive] never throws and cuts the path at some position. *)
Lemma SplitDrive_cut (path : wstring) :
  exists m,
    (m <= length path)%nat
    /\ SplitDrive path = Some (firstn m path, skipn m path).
Proof.
  assert (Hnone : exists m,
             (m <= length path)%nat
             /\ Some (@nil Z, path) = Some (firstn m path, skipn m path)).
  { exists 0%nat. split; [lia | reflexivity]. }
  unfold SplitDrive.
  destruct (Nat.leb 2 (length path)) eqn:Hlen; [|exact Hnone].
  apply Nat.leb_le in Hlen. cbn zeta.
  set (normp := map (fun ch => if ch =? wc "/" then kBackslash else ch) path).
  assert (Hnorm : length normp = length path) by apply length_map.
  rewrite (substr_ok normp 0 2) by lia.
  assert (Hunc : exists is_unc,
    (if wstring_eqb (firstn 2 (skipn 0 normp)) [kBackslash; kBackslash]
     then third <- substr normp 2 1 ;;
          Some (negb (wstring_eqb third [kBackslash]))
     else Some false) = Some is_unc).
  { destruct (wstring_eqb _ _); [|eexists; reflexivity].
    rewrite (substr_ok normp 2 1) by lia. eexists. reflexivity. }
  destruct Hunc as (is_unc & ->).
  destruct is_unc.
  - destruct (find normp kBackslash 2) as [index|] eqn:Hindex; [|exact Hnone].
    destruct (option_nat_eqb _ _); [exact Hnone|].
    apply split_at_ok.
    destruct (find normp kBackslash (index + 1)) as [index2|] eqn:Hindex2.
    + apply find_bound in Hindex2. lia.
    + lia.
  - destruct (nth 1 normp 0 =? wc ":"); [|exact Hnone].
    apply split_at_ok. exact Hlen.
Qed.

(** C9.  [SplitDrive] never throws, and the drive (or share) it returns
    followed by the remainder is the path it was given, code unit for code
    unit. *)
Theorem SplitDrive_concat (path : wstring) :
  exists drive rest,
    SplitDrive path = Some (drive, rest) /\ drive ++ rest = path.
Proof.
  destruct (SplitDrive_cut path) as (m & _ & Hm).
  exists (firstn m path), (skipn m path).
  split; [exact Hm | apply firstn_skipn].
Qed.

Lemma last_slash_loop_spec (p : wstring) (i : nat) :
  (forall k, (i <= k < length p)%nat -> is_sep (nth k p 0) = false) ->
  let r := last_slash_loop p i in
  (r <= i)%nat
  /\ (forall k, (r <= k < length p)%nat -> is_sep (nth k p 0) = false)
  /\ (r = 0%nat \/ is_sep (nth (r - 1) p 0) = true).
Proof.
  induction i as [|i IH]; intros Hk; cbn [last_slash_loop].
  - repeat split; [lia | exact Hk | left; reflexivity].
  - destruct (negb (nth i p 0 =? sep) && negb (nth i p 0 =? altsep)) eqn:E.
    + destruct IH as (Hr & Hno & Hat).
      * intros k Hik. destruct (Nat.eq_dec k i) as [->|Hne].
        -- unfold is_sep. apply andb_true_iff in E. destruct E as [E1 E2].
           apply negb_true_iff in E1. apply negb_true_iff in E2.
           rewrite E1, E2. reflexivity.
        -- apply Hk. lia.
      * repeat split; [lia | exact Hno | exact Hat].
    + repeat split; [lia | exact Hk |]. right.
      cbn [Nat.sub]. rewrite Nat.sub_0_r. unfold is_sep.
      destruct (nth i p 0 =? sep); [reflexivity|].
      destruct (nth i p 0 =? altsep); [reflexivity|discriminate].
Qed.

Lemma find_last_not_in_bound (s seps : wstring) :
  forall i j, find_last_not_in s seps i = Some j -> (i <= j < i + length s)%nat.
Proof.
  induction s as [|x s IH]; intros i j; cbn [find_last_not_in length].
  - discriminate.
  - destruct (find_last_not_in s seps (S i)) as [j'|] eqn:E.
    + intros [= <-]. apply IH in E. lia.
    + destruct (existsb (Z.eqb x) seps); [discriminate|].
      intros [= <-]. lia.
Qed.

(** C10.  [SplitPath] never throws; its tail is what follows position [i]
    of the part [p] after the drive, where [i] is 0 or just beyond a
    separator, and the tail holds no backslash and no forward slash. *)
Theorem SplitPath_tail_no_separator (path : wstring) :
  exists head tail d p i,
    SplitPath path = Some (head, tail)
    /\ SplitDrive path = Some (d, p)
    /\ (i <= length p)%nat
    /\ tail = skipn i p
    /\ (i = 0%nat \/ is_sep (nth (i - 1) p 0) = true)
    /\ Forall (fun c => c <> kBackslash /\ c <> wc "/") tail.
Proof.
  destruct (SplitDrive_cut path) as (m & _ & Hd).
  set (d := firstn m path) in *. set (p := skipn m path) in *.
  clearbody d p.
  unfold SplitPath. rewrite Hd. cbn [fst snd]. cbn zeta.
  destruct (last_slash_loop_spec p (length p)) as (Hi & Hno & Hat);
    [intros k Hk; lia|].
  set (i := last_slash_loop p (length p)) in *. clearbody i.
  rewrite substr_ok by lia. rewrite substr_from_ok by exact Hi.
  cbn [skipn].
  assert (Hhead : exists head,
    match find_last_not_of (firstn i p) seps with
    | Some j => erase_from (firstn i p) (j + 1)
    | None => Some (firstn i p)
    end = Some head).
  { destruct (find_last_not_of (firstn i p) seps) as [j|] eqn:Ej.
    - unfold find_last_not_of in Ej. apply find_last_not_in_bound in Ej.
      rewrite erase_from_ok by lia. eexists. reflexivity.
    - eexists. reflexivity. }
  destruct Hhead as (head & ->).
  exists (d ++ head), (skipn i p), d, p, i.
  repeat split; try assumption.
  apply Forall_forall. intros c Hc.
  destruct (In_nth _ _ 0 Hc) as (k & Hk & <-).
  rewrite length_skipn in Hk.
  specialize (Hno (i + k)%nat). rewrite nth_skipn.
  unfold is_sep, sep, altsep in Hno.
  apply orb_false_iff in Hno; [|lia]. destruct Hno as [H1 H2].
  apply Z.eqb_neq in H1. apply Z.eqb_neq in H2. split; assumption.
Qed.

(** ** Round trip through the native-argv grammar *)
















(** C1.  The round trip fails on an argument that holds a tab and nothing
    else that calls for quotes: the encoder writes it bare, and the decoder
    splits it at the tab, so the list of two arguments comes back as a list
    of three. *)
Theorem EncodeCommandLineWin32_tab_unquoted :
  EncodeCommandLineWin32 [W "prog"; W "a" ++ [kTab] ++ W "b"]
  = W "prog a" ++ [kTab] ++ W "b"
  /\ decode (EncodeCommandLineWin32 [W "prog"; W "a" ++ [kTab] ++ W "b"])
     = [W "prog"; W "a"; W "b"]
  /\ decode (EncodeCommandLineWin32 [W "prog"; W "a" ++ [kTab] ++ W "b"])
     <> [W "prog"; W "a" ++ [kTab] ++ W "b"].
Proof.
  split; [|split]; vm_compute; [reflexivity | reflexivity | discriminate].
Qed.

(** * Further properties *)

(** ** The encoders *)



Lemma escape_body_length (s : wstring) :
  forall n,
    (length s <= length (escape_body n s) <= 2 * length s + n)%nat.
Proof.
  induction s as [|c s IH]; intros n; cbn [escape_body length].
  - rewrite repeat_length. lia.
  - destruct (c =? kBackslash); [|destruct (c =? kQuote)].
    + cbn [length]. specialize (IH (S n)). lia.
    + rewrite length_app, repeat_length. cbn [length]. specialize (IH 0%nat).
      lia.
    + cbn [length]. specialize (IH 0%nat). lia.
Qed.

(** X3.  The quoted form is at least two code units longer than the
    argument and at most twice as long plus two. *)
Theorem EscapeArgWin32_length (arg : wstring) :
  (length arg + 2 <= length (EscapeArgWin32 arg) <= 2 * length arg + 2)%nat.
Proof.
  rewrite EscapeArgWin32_body. cbn [length]. rewrite length_app. cbn [length].
  pose proof (escape_body_length arg 0). lia.
Qed.

(** X4.  The native encoding of two lists put together is the encoding of
    the first, a space, and the encoding of the second. *)
Theorem EncodeCommandLineWin32_app (xs ys : list wstring) :
  xs <> [] -> ys <> [] ->
  EncodeCommandLineWin32 (xs ++ ys)
  = EncodeCommandLineWin32 xs ++ [kSpace] ++ EncodeCommandLineWin32 ys.
Proof.
  intros Hx Hy. destruct ys as [|y ys]; [congruence|].
  rewrite !EncodeCommandLineWin32_join, join_args_app.
  destruct xs as [|x xs]; [congruence|]. reflexivity.
Qed.

Lemma EncodeCommandLineWin32_app_witness :
  EncodeCommandLineWin32 ([W "prog"; W "a b"] ++ [[]; W "c"])
  = EncodeCommandLineWin32 [W "prog"; W "a b"] ++ [kSpace]
      ++ EncodeCommandLineWin32 [[]; W "c"].
Proof.
  apply EncodeCommandLineWin32_app; discriminate.
Defined.

Lemma isCmdMetachar_caret : isCmdMetachar kCaret = true.
Proof. reflexivity. Qed.

Lemma caret_guarded_app (bad : wchar -> bool) (s t : wstring) :
  caret_guarded bad s -> caret_guarded bad t -> caret_guarded bad (s ++ t).
Proof.
  intros Hs Ht. induction Hs; cbn [app]; [exact Ht| |].
  - apply guarded_plain; assumption.
  - apply guarded_pair. assumption.
Qed.

Lemma caret_guarded_caret_char (first : bool) (s : wstring) :
  caret_guarded isCmdMetachar (flat_map (caret_char first) s).
Proof.
  induction s as [|ch s IH]; cbn [flat_map]; [constructor|].
  apply caret_guarded_app; [|exact IH].
  unfold caret_char.
  destruct (isCmdMetachar ch) eqn:Em; cbn [orb].
  - apply guarded_pair. constructor.
  - destruct (first && (ch =? kSpace)).
    + apply guarded_pair. constructor.
    + apply guarded_plain; [exact Em | | constructor].
      intros ->. rewrite isCmdMetachar_caret in Em. discriminate.
Qed.

Lemma caret_guarded_plain_text (s : wstring) :
  forallb (fun c => negb (isCmdMetachar c)) s = true ->
  caret_guarded isCmdMetachar s.
Proof.
  induction s as [|c s IH]; cbn [forallb]; intros H; [constructor|].
  apply andb_true_iff in H. destruct H as [Hc Hs].
  apply negb_true_iff in Hc.
  apply guarded_plain; [exact Hc | | apply IH; exact Hs].
  intros ->. rewrite isCmdMetachar_caret in Hc. discriminate.
Qed.

(** X5.  In the shell command line no metacharacter is bare: read from the
    left, every metacharacter (a caret included) is either a caret that
    opens a pair or the second half of such a pair. *)
Theorem EncodeCommandLineCmd_caret_guarded (args : list wstring) :
  caret_guarded isCmdMetachar (EncodeCommandLineCmd args).
Proof.
  unfold EncodeCommandLineCmd.
  assert (Hstub : caret_guarded isCmdMetachar (W "cmd.exe /D /C"))
    by (apply caret_guarded_plain_text; reflexivity).
  assert (Hspace : caret_guarded isCmdMetachar [kSpace])
    by (apply caret_guarded_plain_text; reflexivity).
  destruct args as [|a rest]; cbn [EncodeCommandLineCmd_loop]; [exact Hstub|].
  cbn [Nat.eqb]. rewrite EncodeCommandLineCmd_loop_spec, caret_copy_first.
  repeat apply caret_guarded_app; try assumption.
  - apply caret_guarded_caret_char.
  - induction rest as [|b rest IH]; cbn [flat_map]; [constructor|].
    change (kSpace :: flat_map (caret_char false) (quote_arg kEscapeSetCmd b))
      with ([kSpace] ++ flat_map (caret_char false)
                                 (quote_arg kEscapeSetCmd b)).
    repeat apply caret_guarded_app; try assumption.
    apply caret_guarded_caret_char.
Qed.

Lemma spec_needs_quotes_app (special more arg : wstring) :
  Forall (fun c => existsb (Z.eqb c) more = false) arg ->
  spec_needs_quotes (special ++ more) arg = spec_needs_quotes special arg.
Proof.
  intros H. destruct arg as [|c0 arg0]; [reflexivity|].
  unfold spec_needs_quotes. revert H. generalize (c0 :: arg0). intros arg H.
  induction H as [|c arg Hc Harg IH]; cbn [existsb]; [reflexivity|].
  rewrite existsb_app, Hc, orb_false_r, IH. reflexivity.
Qed.

(** X23.  On an argument that holds none of tilde, at sign, question mark,
    asterisk and open bracket the two encoders quote alike: the shell
    encoder's rule differs from the native one only on those five. *)
Theorem quote_arg_Cmd_Win32 (arg : wstring) :
  Forall (fun c => existsb (Z.eqb c) (W "~@?*[") = false) arg ->
  quote_arg kEscapeSetCmd arg = quote_arg kEscapeSetWin32 arg.
Proof.
  intros H. rewrite !quote_arg_spec. unfold kEscapeSetWin32.
  fold kEscapeSetCmd. rewrite spec_needs_quotes_app by exact H. reflexivity.
Qed.

Lemma quote_arg_Cmd_Win32_witness :
  quote_arg kEscapeSetCmd (W "C:\Program Files")
  = quote_arg kEscapeSetWin32 (W "C:\Program Files").
Proof.
  apply quote_arg_Cmd_Win32. repeat constructor.
Defined.

(** ** Classification and the shell command line *)

Lemma towlower_letter (c : wchar) :
  (97 <=? towlower c) && (towlower c <=? 122) = true -> is_letter c = true.
Proof.
  unfold towlower, is_letter.
  destruct ((65 <=? c) && (c <=? 90)) eqn:E; [reflexivity|].
  intros H. rewrite H. reflexivity.
Qed.

Lemma kCmdBuiltins_shape :
  forall e, In e kCmdBuiltins ->
    (2 <= length e <= 8)%nat
    /\ forallb (fun c => (97 <=? c) && (c <=? 122)) e = true.
Proof.
  assert (H : forallb (fun e => Nat.leb 2 (length e) && Nat.leb (length e) 8
                        && forallb (fun c => (97 <=? c) && (c <=? 122)) e)
                      kCmdBuiltins = true)
    by (vm_compute; reflexivity).
  rewrite forallb_forall in H. intros e He. specialize (H e He).
  apply andb_true_iff in H. destruct H as [H Hc].
  apply andb_true_iff in H. destruct H as [H2 H8].
  apply Nat.leb_le in H2. apply Nat.leb_le in H8. split; [lia | exact Hc].
Qed.

Lemma IsCmdBuiltin_member (s : wstring) :
  is_cstr s ->
  IsCmdBuiltin s = true <-> In (map towlower s) kCmdBuiltins.
Proof.
  intros Hs. apply binary_search_member.
  - exact kCmdBuiltins_sorted.
  - exact kCmdBuiltins_cstr.
  - exact kCmdBuiltins_folded.
  - exact Hs.
Qed.

Lemma IsCmdBuiltin_shape (s : wstring) :
  is_cstr s ->
  IsCmdBuiltin s = true ->
  (2 <= length s <= 8)%nat /\ forallb is_letter s = true.
Proof.
  intros Hs H.
  assert (Hin : In (map towlower s) kCmdBuiltins)
    by (apply (proj1 (IsCmdBuiltin_member s Hs)); exact H).
  clear H. destruct (kCmdBuiltins_shape _ Hin) as [Hlen Hc]. clear Hin.
  rewrite length_map in Hlen. split; [exact Hlen|].
  rewrite forallb_forall in Hc. apply forallb_forall. intros c Hc'.
  apply towlower_letter. apply Hc. apply in_map. exact Hc'.
Qed.

(** X6.  A C string classified as a builtin is made of two to eight ASCII
    letters: a name with a dot, a digit, a space or a path separator is
    never a builtin. *)
Theorem IsCmdBuiltin_letters (s : wstring) :
  is_cstr s ->
  IsCmdBuiltin s = true ->
  (2 <= length s <= 8)%nat
  /\ Forall (fun c => 65 <= c <= 90 \/ 97 <= c <= 122) s.
Proof.
  intros Hs H. destruct (IsCmdBuiltin_shape s Hs H) as [Hlen Hc].
  split; [exact Hlen|].
  apply Forall_forall. intros c Hin. rewrite forallb_forall in Hc.
  specialize (Hc c Hin). unfold is_letter in Hc.
  apply orb_true_iff in Hc.
  destruct Hc as [Hc|Hc]; apply andb_true_iff in Hc; destruct Hc as [H1 H2];
    apply Z.leb_le in H1; apply Z.leb_le in H2; [left|right]; lia.
Qed.

Lemma IsCmdBuiltin_letters_witness :
  (2 <= length (W "MkDir") <= 8)%nat
  /\ Forall (fun c => 65 <= c <= 90 \/ 97 <= c <= 122) (W "MkDir").
Proof.
  apply (IsCmdBuiltin_letters (W "MkDir")).
  - repeat constructor.
  - vm_compute. reflexivity.
Defined.

Lemma is_letter_plain (c : wchar) :
  is_letter c = true ->
  isCmdMetachar c = false /\ (c =? kSpace) = false /\ (c =? kQuote) = false.
Proof.
  unfold is_letter, isCmdMetachar, kSpace, kQuote, wc. cbn.
  intros H. apply orb_true_iff in H.
  assert (Hr : 65 <= c <= 90 \/ 97 <= c <= 122).
  { destruct H as [H|H]; apply andb_true_iff in H; destruct H as [H1 H2];
      apply Z.leb_le in H1; apply Z.leb_le in H2; lia. }
  repeat match goal with
         | |- context [c =? ?k] =>
           replace (c =? k) with false by (symmetry; apply Z.eqb_neq; lia)
         end.
  repeat split.
Qed.

Lemma letters_verbatim (set s : wstring) :
  s <> [] ->
  forallb is_letter s = true ->
  forallb (fun c => negb (is_letter c)) set = true ->
  verbatim_ok s set = true.
Proof.
  intros Hne Hs Hset. unfold verbatim_ok, wcslen.
  destruct s as [|c0 s0]; [congruence|]. cbn [length Nat.eqb negb andb].
  rewrite wcspbrk_existsb. apply negb_true_iff.
  apply not_true_is_false. intros H. apply existsb_exists in H.
  destruct H as (c & Hc & Hin). apply existsb_exists in Hin.
  destruct Hin as (x & Hx & Heq). apply Z.eqb_eq in Heq. subst x.
  rewrite forallb_forall in Hs, Hset.
  specialize (Hs c Hc). specialize (Hset c Hx).
  rewrite Hs in Hset. discriminate.
Qed.

Lemma letters_caret_free (first : bool) (s : wstring) :
  forallb is_letter s = true -> flat_map (caret_char first) s = s.
Proof.
  induction s as [|c s IH]; cbn [forallb flat_map]; intros H; [reflexivity|].
  apply andb_true_iff in H. destruct H as [Hc Hs].
  destruct (is_letter_plain c Hc) as (Hm & Hsp & _).
  unfold caret_char at 1. rewrite Hm, Hsp, andb_false_r. cbn [orb app].
  rewrite IH by exact Hs. reflexivity.
Qed.

(** X7.  When the first argument is a builtin, the command line hands it to
    the shell as it was given, without quotes or carets and in its own
    case: the command line is the stub, a space, the name, and then the
    other arguments, each after a space, quoted and caret-escaped. *)
Theorem command_line_builtin_name (argv0 : wstring) (args : list wstring) :
  is_cstr argv0 ->
  IsCmdBuiltin argv0 = true ->
  command_line (argv0 :: args)
  = W "cmd.exe /D /C " ++ argv0
      ++ flat_map (fun b => kSpace :: flat_map (caret_char false)
                                               (quote_arg kEscapeSetCmd b))
                  args.
Proof.
  intros Hs Hb. unfold command_line. cbn [nth]. rewrite Hb.
  destruct (IsCmdBuiltin_shape argv0 Hs Hb) as [Hlen Hletters].
  unfold EncodeCommandLineCmd. cbn [EncodeCommandLineCmd_loop Nat.eqb].
  rewrite EncodeCommandLineCmd_loop_spec, caret_copy_first.
  rewrite letters_verbatim;
    [| intros ->; cbn in Hlen; lia | exact Hletters | reflexivity].
  rewrite letters_caret_free by exact Hletters.
  rewrite <- !app_assoc. reflexivity.
Qed.

Lemma command_line_builtin_name_witness :
  command_line [W "EcHo"; W "a&b"; W "c d"]
  = W "cmd.exe /D /C " ++ W "EcHo"
      ++ flat_map (fun b => kSpace :: flat_map (caret_char false)
                                               (quote_arg kEscapeSetCmd b))
                  [W "a&b"; W "c d"].
Proof.
  apply (command_line_builtin_name (W "EcHo")).
  - repeat constructor.
  - vm_compute. reflexivity.
Defined.

(** ** The supervisor and the entry point *)

(** Case analysis on the answers of the host, along the path of a run. *)
Ltac host_cases :=
  repeat (match goal with
          | |- context [if ?b then _ else _] => destruct b eqn:?
          end; cbn [negb orb andb app fst snd]).

Ltac split_last :=
  match goal with
  | |- exists before msg, ?l = _ =>
    exists (removelast l); eexists; cbn [removelast app]; reflexivity
  end.


Ltac run_CallProcess :=
  unfold CallProcess, bind, call, ret, Die;
  cbn [length Nat.eqb nth app fst snd].



(** X9.  When the child is created and its exit code can be read, the run
    attaches it to the job right after creating it, waits, and returns the
    exit code: itself when it is below 2^31, and wrapped to a negative [int]
    above. *)
Theorem CallProcess_exit_status (h : Host) (argv0 : wstring)
    (args : list wstring) :
  reaches_spawn h ->
  create_ok h = true ->
  exit_ok h = true ->
  0 <= rc h < 2 ^ 32 ->
  CallProcess h (argv0 :: args) []
  = (spawn_trace h (argv0 :: args)
       ++ [AssignProcessToJobObject; CloseHandle; WaitForSingleObjectEx;
           GetExitCodeProcess],
     Returns (if rc h <? 2 ^ 31 then rc h else rc h - 2 ^ 32)).
Proof.
  intros (Hq & Hlen & Hjob & Hset & Hctrl) Hcreate Hexit Hrc.
  unfold spawn_trace. run_CallProcess.
  generalize (command_line (argv0 :: args)). intros cl.
  apply Z.eqb_eq in Hlen. apply Z.eqb_neq in Hjob.
  rewrite Hq, Hlen, Hjob, Hset, Hctrl, Hcreate, Hexit. cbn [negb orb app].
  unfold int_of_DWORD. rewrite Z.mod_small by exact Hrc. reflexivity.
Qed.

Lemma CallProcess_exit_status_witness :
  CallProcess (mkHost 144 7 true 144 0 true true true 0 true 42)
              [W "prog"; W "x"] []
  = (spawn_trace (mkHost 144 7 true 144 0 true true true 0 true 42)
                 [W "prog"; W "x"]
       ++ [AssignProcessToJobObject; CloseHandle; WaitForSingleObjectEx;
           GetExitCodeProcess],
     Returns 42).
Proof.
  apply (CallProcess_exit_status
           (mkHost 144 7 true 144 0 true true true 0 true 42)).
  - unfold reaches_spawn. cbn. repeat split. lia.
  - reflexivity.
  - reflexivity.
  - cbn. lia.
Defined.

(** X10.  Whenever a run ends the launcher, the exit status is 1 and the
    last thing it did was to write a line that starts with FATAL: to the
    error stream. *)
Theorem CallProcess_fatal_exit (h : Host) (argv : list wstring) (status : Z) :
  snd (CallProcess h argv []) = Exits status ->
  status = 1
  /\ exists before msg,
       fst (CallProcess h argv [])
       = before ++ [WriteStderr (W "FATAL: " ++ msg ++ endl)].
Proof.
  destruct argv as [|argv0 args].
  - cbn. intros [= <-]. split; [reflexivity|].
    exists [], (W "No arguments specified"). reflexivity.
  - run_CallProcess. generalize (command_line (argv0 :: args)). intros cl.
    host_cases; intros [= <-]; (split; [reflexivity|]); split_last.
Qed.

Lemma CallProcess_fatal_exit_witness :
  1 = 1
  /\ exists before msg,
       fst (CallProcess (mkHost 144 0 true 144 0 true true true 0 true 0)
                        [W "prog"] [])
       = before ++ [WriteStderr (W "FATAL: " ++ msg ++ endl)].
Proof.
  apply (CallProcess_fatal_exit
           (mkHost 144 0 true 144 0 true true true 0 true 0) [W "prog"] 1).
  reflexivity.
Defined.

(** X11.  The limit flags a run sets on the job always hold the bits
    kill-on-job-close and silent-breakaway-ok, and every bit the query
    returned. *)
Theorem CallProcess_limit_flags (h : Host) (argv : list wstring) (flags : Z) :
  In (SetInformationJobObject flags) (fst (CallProcess h argv [])) ->
  Z.land flags JOB_OBJECT_LIMIT_KILL_ON_JOB_CLOSE
  = JOB_OBJECT_LIMIT_KILL_ON_JOB_CLOSE
  /\ Z.land flags JOB_OBJECT_LIMIT_SILENT_BREAKAWAY_OK
     = JOB_OBJECT_LIMIT_SILENT_BREAKAWAY_OK
  /\ Z.land flags (query_LimitFlags h) = query_LimitFlags h.
Proof.
  intros H.
  assert (E : flags
              = Z.lor (Z.lor (query_LimitFlags h)
                             JOB_OBJECT_LIMIT_KILL_ON_JOB_CLOSE)
                      JOB_OBJECT_LIMIT_SILENT_BREAKAWAY_OK).
  { destruct argv as [|argv0 args].
    - cbn in H. destruct H as [H|[]]. discriminate H.
    - revert H. run_CallProcess.
      generalize (command_line (argv0 :: args)). intros cl.
      host_cases; cbn [In]; intros H;
        repeat match goal with
               | H : _ \/ _ |- _ => destruct H as [H|H]
               | H : False |- _ => destruct H
               | H : _ = SetInformationJobObject _ |- _ =>
                 inversion H; subst; clear H
               end;
        try discriminate; reflexivity. }
  subst flags. repeat split; apply Z.bits_inj'; intros n Hn;
    rewrite Z.land_spec, !Z.lor_spec;
    destruct (Z.testbit (query_LimitFlags h) n),
             (Z.testbit JOB_OBJECT_LIMIT_KILL_ON_JOB_CLOSE n),
             (Z.testbit JOB_OBJECT_LIMIT_SILENT_BREAKAWAY_OK n); reflexivity.
Qed.

Lemma CallProcess_limit_flags_witness :
  Z.land 0x3008 JOB_OBJECT_LIMIT_KILL_ON_JOB_CLOSE
  = JOB_OBJECT_LIMIT_KILL_ON_JOB_CLOSE
  /\ Z.land 0x3008 JOB_OBJECT_LIMIT_SILENT_BREAKAWAY_OK
     = JOB_OBJECT_LIMIT_SILENT_BREAKAWAY_OK
  /\ Z.land 0x3008 8 = 8.
Proof.
  apply (CallProcess_limit_flags
           (mkHost 144 7 true 144 8 true true true 0 true 0) [W "prog"]).
  vm_compute. tauto.
Defined.

Lemma not_found_is_not_fatal (argv0 : wstring) :
  argv0 ++ W ": not found" ++ endl
  <> W "FATAL: " ++ W "No arguments specified" ++ endl.
Proof.
  intros H. apply (f_equal (@rev Z)) in H.
  rewrite rev_app_distr in H. vm_compute in H. discriminate H.
Qed.

(** X12.  Started through [wmain], the launcher never reports a missing
    argument list: with fewer than two arguments [wmain] prints the usage
    line and exits, and otherwise [CallProcess] gets at least one
    argument. *)
Theorem wmain_never_without_arguments (h : Host) (argv : list wstring) :
  ~ In (WriteStderr (W "FATAL: " ++ W "No arguments specified" ++ endl))
       (fst (wmain h argv [])).
Proof.
  destruct argv as [|self [|argv0 args]].
  - cbn. intros [H|[]]. discriminate H.
  - cbn. intros [H|[]]. discriminate H.
  - unfold wmain. unfold bind at 1. cbn [length Nat.ltb Nat.leb ret tl].
    run_CallProcess. generalize (command_line (argv0 :: args)). intros cl.
    host_cases; cbn [In]; intros H;
      repeat match goal with
             | H : _ \/ _ |- _ => destruct H as [H|H]
             | H : False |- _ => destruct H
             end;
      try discriminate H.
    injection H as H. exact (not_found_is_not_fatal argv0 H).
Qed.

(** X22.  A run that returns is silent: it writes to the error stream only
    in the not-found case, where the line names argv[0] and the value
    returned is 127. *)
Theorem CallProcess_silent_return (h : Host) (argv : list wstring)
    (value : Z) (line : wstring) :
  snd (CallProcess h argv []) = Returns value ->
  In (WriteStderr line) (fst (CallProcess h argv [])) ->
  value = 127 /\ line = nth 0 argv [] ++ W ": not found" ++ endl.
Proof.
  destruct argv as [|argv0 args].
  - cbn. discriminate.
  - run_CallProcess. generalize (command_line (argv0 :: args)). intros cl.
    host_cases; intros Hv; try discriminate Hv; cbn [In]; intros H;
      repeat match goal with
             | H : _ \/ _ |- _ => destruct H as [H|H]
             | H : False |- _ => destruct H
             end;
      try discriminate H.
    injection Hv as <-. injection H as <-. split; reflexivity.
Qed.

Lemma CallProcess_silent_return_witness :
  127 = 127
  /\ W "nope" ++ W ": not found" ++ endl
     = nth 0 [W "nope"] [] ++ W ": not found" ++ endl.
Proof.
  apply (CallProcess_silent_return
           (mkHost 144 7 true 144 0 true true false 2 true 0) [W "nope"]).
  - reflexivity.
  - vm_compute. tauto.
Defined.

(** ** The loops that grow a buffer *)

Lemma resize_length (n : nat) (buf : wstring) : length (resize n buf) = n.
Proof.
  unfold resize. rewrite length_app, length_firstn, repeat_length. lia.
Qed.

Lemma firstn_repeat_min {A} (x : A) (k n : nat) :
  firstn k (repeat x n) = repeat x (Nat.min k n).
Proof.
  revert n. induction k as [|k IH]; intros [|n]; cbn; try reflexivity.
  rewrite IH. reflexivity.
Qed.

Lemma resize_resize (m n : nat) (buf : wstring) :
  (m <= n)%nat -> resize m (resize n buf) = resize m buf.
Proof.
  intros H. unfold resize at 1. rewrite resize_length.
  replace (m - n)%nat with 0%nat by lia. cbn [repeat]. rewrite app_nil_r.
  unfold resize.
  rewrite firstn_app, firstn_firstn, length_firstn, firstn_repeat_min.
  replace (Nat.min m n) with m by lia.
  f_equal. f_equal. lia.
Qed.

Lemma written_length (a : FillAnswer) (buf : wstring) :
  length (written a buf) = length buf.
Proof. apply resize_length. Qed.

Lemma nth_buffer_length (call : BufferCall) (k : nat) :
  too_small_before call k -> (256 <= length (nth_buffer call k))%nat.
Proof.
  induction k as [|k IH]; intros H; cbn [nth_buffer].
  - rewrite repeat_length. lia.
  - rewrite resize_length.
    assert (Hk : too_small_before call k)
      by (intros j Hj; apply H; lia).
    specialize (IH Hk). specialize (H k (Nat.lt_succ_diag_r k)). lia.
Qed.

Lemma GetEnv_loop_reaches (call : BufferCall) (k : nat) :
  too_small_before call k ->
  forall d j fuel trace,
    (j + d = k)%nat ->
    GetEnv_loop (d + fuel) call j (nth_buffer call j) trace
    = GetEnv_loop fuel call k (nth_buffer call k) trace.
Proof.
  intros Hsmall. induction d as [|d IH]; intros j fuel trace Hj.
  - replace j with k by lia. reflexivity.
  - cbn [Nat.add GetEnv_loop].
    assert (Hjk : (j < k)%nat) by lia.
    pose proof (Hsmall j Hjk) as Hr.
    assert (Hlen : (256 <= length (nth_buffer call j))%nat)
      by (apply nth_buffer_length; intros i Hi; apply Hsmall; lia).
    replace (Nat.eqb (fill_result (call j (nth_buffer call j))) 0) with false
      by (symmetry; apply Nat.eqb_neq; lia).
    replace (Nat.ltb (fill_result (call j (nth_buffer call j)))
                     (length (nth_buffer call j))) with false
      by (symmetry; apply Nat.ltb_ge; lia).
    apply (IH (S j)). lia.
Qed.

(** X13.  [GetEnv] ends at the first call whose answer fits the buffer: when
    every earlier call answered more than its buffer holds and call [k]
    answers [r] with [0 < r] below the size of its buffer, then with more
    than [k] iterations [GetEnv] returns the first [r] code units the host
    wrote and writes no diagnostic. *)
Theorem GetEnv_returns_at (call : BufferCall) (k fuel : nat) :
  too_small_before call k ->
  (0 < fill_result (call k (nth_buffer call k))
   < length (nth_buffer call k))%nat ->
  (k < fuel)%nat ->
  GetEnv fuel call []
  = ([], Returns (Some (resize
                          (fill_result (call k (nth_buffer call k)))
                          (fill_buf (call k (nth_buffer call k)))))).
Proof.
  intros Hsmall Hr Hfuel. unfold GetEnv.
  replace fuel with (k + S (fuel - S k))%nat by lia.
  change (repeat 0 256%nat) with (nth_buffer call 0).
  rewrite (GetEnv_loop_reaches call k Hsmall k 0) by lia.
  cbn [GetEnv_loop].
  replace (Nat.eqb (fill_result (call k (nth_buffer call k))) 0) with false
    by (symmetry; apply Nat.eqb_neq; lia).
  replace (Nat.ltb (fill_result (call k (nth_buffer call k)))
                   (length (nth_buffer call k))) with true
    by (symmetry; apply Nat.ltb_lt; lia).
  unfold ret, written. rewrite resize_resize by lia. reflexivity.
Qed.

Lemma GetEnv_returns_at_witness :
  GetEnv 2 (fun _ buf =>
              if Nat.ltb 300 (length buf)
              then mkFillAnswer 300 (repeat 97 300) 0
              else mkFillAnswer 301 [] 122)
         []
  = ([], Returns (Some (resize 300 (repeat 97 300)))).
Proof.
  apply (GetEnv_returns_at
           (fun _ buf =>
              if Nat.ltb 300 (length buf)
              then mkFillAnswer 300 (repeat 97 300) 0
              else mkFillAnswer 301 [] 122) 1 2).
  - intros j Hj. replace j with 0%nat by lia. vm_compute. lia.
  - vm_compute. lia.
  - lia.
Defined.

(** X14.  A call that answers 0 ends [GetEnv]: with the error "variable not
    found" it returns the empty string and writes nothing, with any other
    error it ends the launcher with the fatal diagnostic. *)
Theorem GetEnv_zero_answer (call : BufferCall) (k fuel : nat) :
  too_small_before call k ->
  fill_result (call k (nth_buffer call k)) = 0%nat ->
  (k < fuel)%nat ->
  GetEnv fuel call []
  = if fill_last_error (call k (nth_buffer call k)) =? ERROR_ENVVAR_NOT_FOUND
    then ([], Returns (Some []))
    else ([WriteStderr (W "FATAL: "
                          ++ W "Failed to look up environment variable"
                          ++ endl)],
          Exits 1).
Proof.
  intros Hsmall Hr Hfuel. unfold GetEnv.
  replace fuel with (k + S (fuel - S k))%nat by lia.
  change (repeat 0 256%nat) with (nth_buffer call 0).
  rewrite (GetEnv_loop_reaches call k Hsmall k 0) by lia.
  cbn [GetEnv_loop]. rewrite Hr. cbn [Nat.eqb].
  destruct (fill_last_error _ =? ERROR_ENVVAR_NOT_FOUND); reflexivity.
Qed.

Lemma GetEnv_zero_answer_witness :
  GetEnv 1 (fun _ _ => mkFillAnswer 0 [] ERROR_ENVVAR_NOT_FOUND) []
  = ([], Returns (Some [])).
Proof.
  apply (GetEnv_zero_answer
           (fun _ _ => mkFillAnswer 0 [] ERROR_ENVVAR_NOT_FOUND) 0 1).
  - intros j Hj. lia.
  - reflexivity.
  - lia.
Defined.




Lemma GetExecutablePath_loop_stuck (call : BufferCall) :
  (forall k buf, length buf = 256%nat -> fill_result (call k buf) = 256%nat) ->
  forall fuel k buf trace,
    length buf = 256%nat ->
    GetExecutablePath_loop fuel call k buf trace = (trace, Returns None).
Proof.
  intros Hfull. induction fuel as [|fuel IH]; intros k buf trace Hlen;
    cbn [GetExecutablePath_loop]; [reflexivity|].
  rewrite (Hfull k buf Hlen), Hlen. cbn [Nat.eqb Nat.ltb Nat.leb].
  unfold bind at 1. unfold ret at 1.
  apply IH. apply resize_length.
Qed.

(** X16.  When the host answers every call on a buffer of 256 code units
    with 256 (its answer when the path does not fit), [GetExecutablePath]
    never enlarges the buffer: whatever the number of iterations, it has
    neither returned a path nor ended the launcher. *)
Theorem GetExecutablePath_never_returns (call : BufferCall) (fuel : nat) :
  (forall k buf, length buf = 256%nat -> fill_result (call k buf) = 256%nat) ->
  GetExecutablePath fuel call [] = ([], Returns None).
Proof.
  intros Hfull. unfold GetExecutablePath.
  apply GetExecutablePath_loop_stuck; [exact Hfull|].
  apply repeat_length.
Qed.

Lemma GetExecutablePath_never_returns_witness :
  GetExecutablePath 1000 (fun _ buf => mkFillAnswer (length buf) buf 122) []
  = ([], Returns None).
Proof.
  apply (GetExecutablePath_never_returns
           (fun _ buf => mkFillAnswer (length buf) buf 122) 1000).
  intros k buf Hlen. exact Hlen.
Defined.

(** ** Path splitting, continued *)

Lemma normalized_length (path : wstring) :
  length (normalized path) = length path.
Proof. apply length_map. Qed.

Lemma normalized_idem (path : wstring) :
  normalized (normalized path) = normalized path.
Proof.
  unfold normalized. rewrite map_map. apply map_ext. intros c.
  destruct (c =? wc "/") eqn:E; [reflexivity|]. rewrite E. reflexivity.
Qed.

Lemma SplitDrive_drive_cut (path : wstring) :
  SplitDrive path
  = Some (firstn (drive_cut (normalized path)) path,
          skipn (drive_cut (normalized path)) path).
Proof.
  unfold SplitDrive, drive_cut. rewrite normalized_length.
  destruct (Nat.leb 2 (length path)) eqn:Hlen; [|reflexivity].
  apply Nat.leb_le in Hlen. cbn zeta. fold (normalized path).
  pose proof (normalized_length path) as Hnorm.
  set (normp := normalized path) in *.
  rewrite (substr_ok normp 0 2) by lia. rewrite skipn_O.
  destruct (wstring_eqb (firstn 2 normp) [kBackslash; kBackslash]);
    cbn [andb].
  - rewrite (substr_ok normp 2 1) by lia.
    destruct (negb (wstring_eqb (firstn 1 (skipn 2 normp)) [kBackslash])).
    + destruct (find normp kBackslash 2) as [index|]; [|reflexivity].
      destruct (find normp kBackslash (index + 1)) as [index2|] eqn:E2;
        cbn [option_nat_eqb].
      * destruct (Nat.eqb index2 (index + 1)); [reflexivity|].
        apply find_bound in E2.
        rewrite substr_ok by lia. rewrite substr_from_ok by lia. reflexivity.
      * rewrite substr_ok by lia. rewrite substr_from_ok by lia.
        reflexivity.
    + destruct (nth 1 normp 0 =? wc ":"); [|reflexivity].
      rewrite substr_ok by lia. rewrite substr_from_ok by lia. reflexivity.
  - destruct (nth 1 normp 0 =? wc ":"); [|reflexivity].
    rewrite substr_ok by lia. rewrite substr_from_ok by lia. reflexivity.
Qed.

(** X17.  Forward slashes and backslashes are interchangeable for
    [SplitDrive]: the path with every forward slash turned into a backslash
    is cut at the same position. *)
Theorem SplitDrive_normalized (path : wstring) :
  exists drive rest,
    SplitDrive path = Some (drive, rest)
    /\ SplitDrive (normalized path)
       = Some (normalized drive, normalized rest).
Proof.
  exists (firstn (drive_cut (normalized path)) path),
         (skipn (drive_cut (normalized path)) path).
  split; [apply SplitDrive_drive_cut|].
  rewrite SplitDrive_drive_cut, normalized_idem.
  unfold normalized at 2 4 5 6. rewrite firstn_map, skipn_map. reflexivity.
Qed.

Lemma nth_normalized (path : wstring) (i : nat) :
  (nth i (normalized path) 0 =? kBackslash) = is_sep (nth i path 0).
Proof.
  unfold normalized, is_sep, sep, altsep.
  change 0 with ((fun ch => if ch =? wc "/" then kBackslash else ch) 0) at 1.
  rewrite map_nth.
  destruct (nth i path 0 =? wc "/") eqn:E.
  - rewrite orb_true_r. reflexivity.
  - rewrite orb_false_r. reflexivity.
Qed.

(** X18.  A path whose second code unit is a colon is cut after the colon,
    whatever stands before it. *)
Theorem SplitDrive_drive_letter (path : wstring) :
  nth 1 path 0 = wc ":" ->
  SplitDrive path = Some (firstn 2 path, skipn 2 path).
Proof.
  intros Hcolon. rewrite SplitDrive_drive_cut. unfold drive_cut.
  rewrite normalized_length.
  destruct path as [|c0 [|c1 path]]; [discriminate Hcolon..|].
  cbn [nth] in Hcolon. subst c1.
  cbn [length Nat.leb normalized map firstn skipn nth].
  replace (wc ":" =? wc "/") with false by reflexivity.
  replace (wstring_eqb _ [kBackslash; kBackslash]) with false.
  - cbn [andb]. rewrite Z.eqb_refl. reflexivity.
  - symmetry. unfold wstring_eqb.
    destruct (list_eq_dec Z.eq_dec _ _) as [E|]; [|reflexivity].
    discriminate E.
Qed.

Lemma SplitDrive_drive_letter_witness :
  SplitDrive (W "c:/dir/file.txt")
  = Some (firstn 2 (W "c:/dir/file.txt"), skipn 2 (W "c:/dir/file.txt")).
Proof.
  apply SplitDrive_drive_letter. reflexivity.
Defined.

Lemma in_seps_is_sep (c : wchar) : existsb (Z.eqb c) seps = is_sep c.
Proof.
  unfold seps, is_sep, sep, altsep. cbn [existsb].
  rewrite orb_false_r. apply orb_comm.
Qed.

Lemma find_last_not_in_None (s : wstring) :
  forall i, find_last_not_in s seps i = None ->
    Forall (fun c => is_sep c = true) s.
Proof.
  induction s as [|x s IH]; intros i; cbn [find_last_not_in]; [constructor|].
  destruct (find_last_not_in s seps (S i)) eqn:E; [discriminate|].
  rewrite in_seps_is_sep. destruct (is_sep x) eqn:Ex; [|discriminate].
  intros _. constructor; [exact Ex | exact (IH _ E)].
Qed.

Lemma find_last_not_in_Some (s : wstring) :
  forall i j, find_last_not_in s seps i = Some j ->
    (i <= j < i + length s)%nat
    /\ is_sep (nth (j - i) s 0) = false
    /\ Forall (fun c => is_sep c = true) (skipn (S (j - i)) s).
Proof.
  induction s as [|x s IH]; intros i j; cbn [find_last_not_in];
    [discriminate|].
  destruct (find_last_not_in s seps (S i)) as [j'|] eqn:E.
  - intros [= <-]. destruct (IH _ _ E) as (Hb & Hn & Hall).
    cbn [length]. split; [lia|].
    replace (j' - i)%nat with (S (j' - S i)) by lia.
    cbn [nth skipn]. split; assumption.
  - rewrite in_seps_is_sep. destruct (is_sep x) eqn:Ex; [discriminate|].
    intros [= <-]. cbn [length]. rewrite Nat.sub_diag. cbn [nth skipn].
    repeat split; [lia | lia | exact Ex |].
    exact (find_last_not_in_None _ _ E).
Qed.

Lemma last_firstn_nth (s : wstring) (j : nat) :
  (j < length s)%nat -> last (firstn (S j) s) 0 = nth j s 0.
Proof.
  revert j. induction s as [|x s IH]; intros j Hj; [cbn in Hj; lia|].
  destruct j as [|j]; [reflexivity|].
  cbn [length] in Hj. specialize (IH j (proj2 (Nat.succ_lt_mono _ _) Hj)).
  change (firstn (S (S j)) (x :: s)) with (x :: firstn (S j) s).
  change (nth (S j) (x :: s) 0) with (nth j s 0). rewrite <- IH.
  destruct s as [|y s]; [cbn in Hj; lia|]. reflexivity.
Qed.

(** How [SplitPath] takes a path apart: the drive [d], the head [h] it
    keeps, the separators [m] it drops and the tail. *)
Lemma SplitPath_parts (path : wstring) :
  exists d h m tail,
    SplitPath path = Some (d ++ h, tail)
    /\ SplitDrive path = Some (d, h ++ m ++ tail)
    /\ d ++ h ++ m ++ tail = path
    /\ Forall (fun c => is_sep c = true) m
    /\ ((m = [] /\ Forall (fun c => is_sep c = true) h)
        \/ (h <> [] /\ is_sep (last h 0) = false)).
Proof.
  destruct (SplitDrive_cut path) as (n & _ & Hd).
  pose proof (firstn_skipn n path) as Hpath.
  set (d := firstn n path) in *. set (p := skipn n path) in *.
  clearbody d p.
  unfold SplitPath. rewrite Hd. cbn [fst snd]. cbn zeta.
  destruct (last_slash_loop_spec p (length p)) as (Hi & _ & _);
    [intros k Hk; lia|].
  set (i := last_slash_loop p (length p)) in *. clearbody i.
  rewrite substr_ok by lia. rewrite substr_from_ok by exact Hi.
  rewrite skipn_O.
  pose proof (firstn_skipn i p) as Hp.
  set (head := firstn i p) in *. set (tail := skipn i p) in *.
  clearbody head tail.
  unfold find_last_not_of.
  destruct (find_last_not_in head seps 0) as [j|] eqn:Ej.
  - destruct (find_last_not_in_Some _ _ _ Ej) as (Hb & Hn & Hall).
    rewrite Nat.sub_0_r in Hn, Hall.
    rewrite erase_from_ok by lia.
    replace (j + 1)%nat with (S j) by lia.
    pose proof (firstn_skipn (S j) head) as Hhead.
    exists d, (firstn (S j) head), (skipn (S j) head), tail.
    rewrite (app_assoc (firstn (S j) head)), Hhead, Hp.
    repeat split; [exact Hpath | exact Hall |].
    right. split.
    + intros E. apply (f_equal (@length Z)) in E.
      rewrite length_firstn in E. cbn [length] in E. lia.
    + rewrite last_firstn_nth by lia. exact Hn.
  - exists d, head, [], tail. cbn [app]. rewrite Hp.
    repeat split; [exact Hpath | constructor |].
    left. split; [reflexivity|]. exact (find_last_not_in_None _ _ Ej).
Qed.

(** X19.  [SplitPath] loses nothing but separators: its head, then some
    separators, then its tail make up the path it was given. *)
Theorem SplitPath_rejoin (path : wstring) :
  exists head m tail,
    SplitPath path = Some (head, tail)
    /\ Forall (fun c => c = kBackslash \/ c = wc "/") m
    /\ head ++ m ++ tail = path.
Proof.
  destruct (SplitPath_parts path) as (d & h & m & tail & Hs & _ & Hp & Hm & _).
  exists (d ++ h), m, tail. split; [exact Hs|]. split.
  - eapply Forall_impl; [|exact Hm]. intros c Hc. unfold is_sep, sep, altsep in Hc.
    apply orb_true_iff in Hc. destruct Hc as [Hc|Hc]; apply Z.eqb_eq in Hc;
      [left|right]; exact Hc.
  - rewrite <- app_assoc. exact Hp.
Qed.

(** X20.  The head [SplitPath] returns is the drive followed by a part that
    either consists of separators only or does not end in a separator:
    trailing separators are removed from the head unless it is all
    separators. *)
Theorem SplitPath_head_trimmed (path : wstring) :
  exists d h rest tail,
    SplitPath path = Some (d ++ h, tail)
    /\ SplitDrive path = Some (d, rest)
    /\ (Forall (fun c => is_sep c = true) h
        \/ (h <> [] /\ is_sep (last h 0) = false)).
Proof.
  destruct (SplitPath_parts path) as (d & h & m & tail & Hs & Hd & _ & _ & Hh).
  exists d, h, (h ++ m ++ tail), tail. repeat split; [exact Hs | exact Hd |].
  destruct Hh as [[_ Hall]|Hlast]; [left; exact Hall | right; exact Hlast].
Qed.

Lemma find_in_skip (a b : wstring) (c : wchar) :
  Forall (fun x => x <> c) a ->
  forall i, find_in (a ++ b) c i = find_in b c (i + length a).
Proof.
  induction a as [|x a IH]; intros Ha i; cbn [app find_in length].
  - rewrite Nat.add_0_r. reflexivity.
  - inversion Ha as [|x' a' Hx Ha']; subst.
    apply Z.eqb_neq in Hx. rewrite Hx, IH by exact Ha'.
    f_equal. lia.
Qed.

Lemma normalized_sep (c : wchar) :
  is_sep c = true -> (if c =? wc "/" then kBackslash else c) = kBackslash.
Proof.
  unfold is_sep, sep, altsep. intros H.
  destruct (c =? wc "/"); [reflexivity|].
  rewrite orb_false_r in H. apply Z.eqb_eq in H. exact H.
Qed.

Lemma normalized_not_sep (s : wstring) :
  Forall (fun c => is_sep c = false) s ->
  Forall (fun c => c <> kBackslash) (normalized s).
Proof.
  unfold normalized. intros H. apply Forall_map.
  eapply Forall_impl; [|exact H]. intros c Hc.
  unfold is_sep, sep, altsep in Hc. apply orb_false_iff in Hc.
  destruct Hc as [H1 H2]. rewrite H2. apply Z.eqb_neq. exact H1.
Qed.

(** X21.  A path made of two separators, a host name, a separator, a share
    name and a rest that is empty or starts with a separator is cut between
    the share name and the rest. *)
Theorem SplitDrive_unc (s1 s2 s3 : wchar) (host share rest : wstring) :
  is_sep s1 = true -> is_sep s2 = true -> is_sep s3 = true ->
  host <> [] -> Forall (fun c => is_sep c = false) host ->
  share <> [] -> Forall (fun c => is_sep c = false) share ->
  (rest = [] \/ is_sep (hd 0 rest) = true) ->
  SplitDrive (s1 :: s2 :: host ++ s3 :: share ++ rest)
  = Some (s1 :: s2 :: host ++ s3 :: share, rest).
Proof.
  intros H1 H2 H3 Hhost Hh Hshare Hs Hrest.
  rewrite SplitDrive_drive_cut.
  set (prefix := s1 :: s2 :: host ++ s3 :: share).
  assert (Hpath : s1 :: s2 :: host ++ s3 :: share ++ rest = prefix ++ rest).
  { unfold prefix. cbn [app]. rewrite <- app_assoc. reflexivity. }
  assert (Hcut : drive_cut (normalized (s1 :: s2 :: host ++ s3 :: share ++ rest))
                 = length prefix).
  { unfold drive_cut, normalized. cbn [map].
    rewrite map_app. cbn [map]. rewrite map_app.
    rewrite (normalized_sep s1 H1), (normalized_sep s2 H2),
            (normalized_sep s3 H3).
    fold (normalized host) (normalized share) (normalized rest).
    pose proof (normalized_not_sep host Hh) as Hnh.
    pose proof (normalized_not_sep share Hs) as Hns.
    assert (Hlh : length (normalized host) = length host)
      by apply normalized_length.
    assert (Hls : length (normalized share) = length share)
      by apply normalized_length.
    assert (Hlr : length (normalized rest) = length rest)
      by apply normalized_length.
    assert (Hnr : normalized rest = []
                  \/ exists r, normalized rest = kBackslash :: r).
    { destruct Hrest as [->|Hr]; [left; reflexivity|].
      destruct rest as [|c rest]; [left; reflexivity|]. right.
      cbn [hd] in Hr. unfold normalized. cbn [map].
      rewrite (normalized_sep c Hr). eexists. reflexivity. }
    destruct host as [|h0 host']; [congruence|]. clear Hhost.
    destruct share as [|sh0 share']; [congruence|]. clear Hshare.
    set (nh := normalized (h0 :: host')) in *.
    set (ns := normalized (sh0 :: share')) in *.
    set (nr := normalized rest) in *.
    cbn [length Nat.leb firstn].
    replace (wstring_eqb [kBackslash; kBackslash] [kBackslash; kBackslash])
      with true by reflexivity.
    cbn [skipn andb].
    assert (Hthird : wstring_eqb (firstn 1 (nh ++ kBackslash :: ns ++ nr))
                                 [kBackslash] = false).
    { unfold nh, normalized. cbn [map app firstn].
      unfold nh, normalized in Hnh. cbn [map] in Hnh.
      inversion Hnh as [|x l Hx Hl]; subst.
      unfold wstring_eqb. destruct (list_eq_dec Z.eq_dec _ _) as [E|];
        [|reflexivity].
      injection E as E. contradiction. }
    cbn [firstn] in Hthird. rewrite Hthird. cbn [negb].
    unfold find. cbn [skipn].
    rewrite (find_in_skip nh _ kBackslash Hnh). cbn [find_in].
    rewrite Z.eqb_refl.
    replace (skipn (2 + length nh + 1)
                   (kBackslash :: kBackslash :: nh ++ kBackslash :: ns ++ nr))
      with (ns ++ nr).
    2: { replace (2 + length nh + 1)%nat with (S (S (length nh + 1))) by lia.
         cbn [skipn].
         change (nh ++ kBackslash :: ns ++ nr)
           with (nh ++ [kBackslash] ++ ns ++ nr).
         rewrite app_assoc, skipn_app.
         replace (length nh + 1)%nat with (length (nh ++ [kBackslash]))
           by (rewrite length_app; reflexivity).
         rewrite skipn_all, Nat.sub_diag. reflexivity. }
    rewrite (find_in_skip ns _ kBackslash Hns).
    unfold prefix. cbn [length]. rewrite !length_app. cbn [length].
    destruct Hnr as [->|(r & ->)]; cbn [find_in option_nat_eqb].
    - rewrite length_app. cbn [length] in *. lia.
    - rewrite Z.eqb_refl. cbn [option_nat_eqb]. cbn [length] in Hlh, Hls.
      replace (Nat.eqb (2 + length nh + 1 + length ns) (2 + length nh + 1))
        with false by (symmetry; apply Nat.eqb_neq; lia).
      lia. }
  rewrite Hcut, Hpath.
  rewrite firstn_app, firstn_all, Nat.sub_diag, firstn_O, app_nil_r.
  rewrite skipn_app, skipn_all, Nat.sub_diag, skipn_O. reflexivity.
Qed.

Lemma SplitDrive_unc_witness :
  SplitDrive (wc "/" :: kBackslash :: W "host" ++ wc "/" :: W "share"
                ++ W "\dir\file")
  = Some (wc "/" :: kBackslash :: W "host" ++ wc "/" :: W "share",
          W "\dir\file").
Proof.
  apply SplitDrive_unc; try reflexivity; try discriminate.
  - repeat constructor.
  - repeat constructor.
  - right. reflexivity.
Defined.
